(** * tscpp: a shallow embedding of the buffer and stream serialization API

    The development follows [src/tscpp.cpp] (the codec, the type pool and
    the two transports), [src/tscpp/stream.h] (exception type, stream
    archives) and [src/tscpp/typeid.h] (the compile-time type tag, and the
    buffer API header with the error enumeration and [registerType]).

    Modelling conventions.
    - A [char] is a [Byte.byte]; a pointer into memory is the list of bytes
      that starts at the pointed address ([p + k] is [drop k p]).
    - C [int] values are integers of [Z].  The [int] sum that gives the
      record length in [serializeImpl] and [unserializeImpl] is written
      with the two's-complement wrap-around the compilers of the targets
      produce when it leaves the range of [int]; the unsigned 32-bit
      arithmetic of the hash wraps around and the wrap is written out.
    - A function that writes through a pointer returns the new content of
      the pointed memory next to its C return value.
    - An [std::istream] is a record holding the bytes of the source, the get
      position and the [eofbit]/[failbit] state flags; member functions
      return the new stream next to their result. *)

From Stdlib Require Import ZArith Lia List.
From Stdlib Require Import Strings.Byte Strings.String.
From stdpp Require Import base option list gmap strings.

Import ListNotations.
Local Open Scope Z_scope.

(** ** Bytes *)

#[global] Instance byte_eq_dec : EqDecision byte := Byte.byte_eq_dec.

#[global] Program Instance byte_countable : Countable byte :=
  inj_countable Byte.to_N Byte.of_N _.
Next Obligation. intros b. apply Byte.of_to_N. Qed.

(** The string terminator ['\0']. *)
Definition NUL : byte := x00.

(** The bytes of a string literal (without a terminator). *)
Definition bytes (s : string) : list byte := list_byte_of_string s.

(** ** The C library functions the code calls *)

(** The number of bytes before the first [delim]; the scan stops at the end
    of the modelled memory. *)
Fixpoint count_until (delim : byte) (s : list byte) : nat :=
  match s with
  | [] => O
  | c :: s' => if decide (c = delim) then O else S (count_until delim s')
  end.

(** [strlen(s)]: the number of bytes before the first terminator. *)
Definition strlen (s : list byte) : nat := count_until NUL s.

(** [strnlen(s, maxlen)]: as [strlen], looking at no more than [maxlen]
    bytes.  [maxlen] is a [size_t]: a negative [int] passed for it is a
    count larger than any object, which the decreasing counter does not
    exhaust before the scan ends. *)
Fixpoint strnlen (s : list byte) (maxlen : Z) : Z :=
  match s with
  | [] => 0
  | c :: s' =>
      if decide (maxlen = 0) then 0
      else if decide (c = NUL) then 0
      else 1 + strnlen s' (maxlen - 1)
  end.

(** [memcmp(a, b, n)]: zero exactly when the first [n] bytes agree.  The
    code only tests the result against zero, so one non-zero value stands
    for both signs. *)
Definition memcmp (a b : list byte) (n : Z) : Z :=
  if decide (take (Z.to_nat n) a = take (Z.to_nat n) b) then 0 else 1.

(** [memcpy(dst, src, n)]: the content of [dst] afterwards. *)
Definition memcpy (dst src : list byte) (n : Z) : list byte :=
  list_inserts 0 (take (Z.to_nat n) src) dst.

(** A store through the pointer [p + off]: [f] gives the new content of the
    memory at [p + off], the result is the new content of the memory at [p]. *)
Definition at_offset (p : list byte) (off : Z)
    (f : list byte -> list byte) : list byte :=
  take (Z.to_nat off) p ++ f (drop (Z.to_nat off) p).

(** The content of a C string: the bytes before its terminator.  Also the
    conversion from [const char*] to [std::string]. *)
Definition c_str (s : list byte) : list byte := take (strlen s) s.

(** ** Error codes of the buffer API (enum [TscppError]) *)

Definition BufferTooSmall : Z := -1.
Definition WrongType : Z := -2.
Definition UnknownType : Z := -3.

(** Modelled from the spec: the header [tscpp.h] that [tscpp.cpp] includes,
    which declares the enumerators [TypeMismatch] and [TypeNotFound], is
    missing.  They are the negative sentinel codes for a tag that differs
    from the expected one and for a tag that is not in the pool; the buffer
    API header declares the same two codes as [WrongType] and
    [UnknownType]. *)
Definition TypeMismatch : Z := WrongType.
Definition TypeNotFound : Z := UnknownType.

(** ** The type [int] *)

Definition INT_MAX : Z := 2147483647.
Definition INT_MIN : Z := -2147483648.

(** The [int] with the same low 32 bits: what a sum that leaves the range
    of [int] leaves in an [int] variable on the two's-complement targets. *)
Definition to_int (z : Z) : Z := (z + 2147483648) mod 4294967296 - 2147483648.

(** [a + b] on operands of type [int]. *)
Definition int_add (a b : Z) : Z := to_int (a + b).

(** ** Buffer API: known types *)

(** [int serializeImpl(void *buffer, int bufSize, const char *name,
                       const void *data, int size)] *)
Definition serializeImpl (buffer : list byte) (bufSize : Z)
    (name : list byte) (data : list byte) (size : Z) : Z * list byte :=
  let nameSize := Z.of_nat (strlen name) in
  let serializedSize := int_add (int_add nameSize 1) size in
  if decide (serializedSize > bufSize) then (BufferTooSmall, buffer)
  else
    let buf := buffer in
    let buf := memcpy buf name (nameSize + 1) in
    let buf := at_offset buf (nameSize + 1) (fun p => memcpy p data size) in
    (serializedSize, buf).

(** [int unserializeImpl(const char *name, void *data, int size,
                         const void *buffer, int bufSize)] *)
Definition unserializeImpl (name : list byte) (data : list byte) (size : Z)
    (buffer : list byte) (bufSize : Z) : Z * list byte :=
  let nameSize := Z.of_nat (strlen name) in
  let serializedSize := int_add (int_add nameSize 1) size in
  if decide (serializedSize > bufSize) then (BufferTooSmall, data)
  else
    let buf := buffer in
    if decide (memcmp buf name (nameSize + 1) <> 0) then (TypeMismatch, data)
    else (serializedSize, memcpy data (drop (Z.to_nat (nameSize + 1)) buf) size).

(** The templates [serialize<T>] and [unserialize<T>].  A trivially copyable
    type is given by the string [typeid(T).name()] returns and by
    [sizeof(T)]; a value of the type is its object representation.  The API
    passes and returns the sizes of a type as [int]: a [ctype] is a type
    whose record length [strlen(name) + 1 + sizeof(T)] is an [int]. *)
Record ctype := CType {
  type_name : list byte;
  sizeof : nat;
  record_fits_int :
    (Z.of_nat (strlen type_name) + 1 + Z.of_nat sizeof <=? INT_MAX) = true
}.

Definition has_type (T : ctype) (t : list byte) : Prop := length t = sizeof T.

(** [typeid(T).name()] is a terminated C string. *)
Definition c_string (name : list byte) : Prop := NUL ∈ name.

Definition serialize (T : ctype) (buffer : list byte) (bufSize : Z)
    (t : list byte) : Z * list byte :=
  serializeImpl buffer bufSize (type_name T) t (Z.of_nat (sizeof T)).

Definition unserialize (T : ctype) (t : list byte) (buffer : list byte)
    (bufSize : Z) : Z * list byte :=
  unserializeImpl (type_name T) t (Z.of_nat (sizeof T)) buffer bufSize.

(** ** Buffer API: the type pool and unknown types *)

Module DeserializerImpl.
(** [usc] is the stored callback, a [std::function] from a pointer to the
    payload to [void]; its effect is a transition of the state [U] the
    user callbacks act on. *)
Record t (U : Type) := Make { size : Z; usc : list byte -> U -> U }.
Arguments Make {U} _ _.
Arguments size {U} _.
Arguments usc {U} _ _ _.
End DeserializerImpl.

(** The member [types] of the pool: [std::map<std::string, DeserializerImpl>]. *)
Abbreviation TypePool U := (gmap (list byte) (DeserializerImpl.t U)).

Section Pool.
Context {U : Type}.

(** [template<typename T> void registerType(std::function<void(T&)> callback)]:
    the stored closure copies [sizeof(T)] bytes into a local [T t] and hands
    it to the user callback. *)
Definition registerType (T : ctype) (callback : list byte -> U -> U)
    (types : TypePool U) : TypePool U :=
  <[ c_str (type_name T) :=
       DeserializerImpl.Make (Z.of_nat (sizeof T))
         (fun buffer =>
            let t := replicate (sizeof T) NUL in
            let t := memcpy t buffer (Z.of_nat (sizeof T)) in
            callback t) ]> types.

(** [int TypePool::unserializeUnknownImpl(const char *name,
                                          const void *buffer, int bufSize) const] *)
Definition unserializeUnknownImpl (types : TypePool U) (name : list byte)
    (buffer : list byte) (bufSize : Z) (u : U) : Z * U :=
  match types !! c_str name with
  | None => (TypeNotFound, u)
  | Some it =>
      if decide (DeserializerImpl.size it > bufSize) then (BufferTooSmall, u)
      else (DeserializerImpl.size it, DeserializerImpl.usc it buffer u)
  end.

(** [int unserializeUnknown(const TypePool& tp, const void *buffer, int bufSize)] *)
Definition unserializeUnknown (tp : TypePool U) (buffer : list byte)
    (bufSize : Z) (u : U) : Z * U :=
  let buf := buffer in
  let nameSize := strnlen buf bufSize in
  if decide (nameSize >= bufSize) then (BufferTooSmall, u)
  else
    let name := buf in
    let buf := drop (Z.to_nat (nameSize + 1)) buf in
    let bufSize := bufSize - (nameSize + 1) in
    let '(r, u) := unserializeUnknownImpl tp name buf bufSize u in
    (r + nameSize + 1, u).
End Pool.

(** [string peekTypeName(const void *buffer, int bufSize)] *)
Definition peekTypeName (buffer : list byte) (bufSize : Z) : list byte :=
  let buf := buffer in
  let nameSize := strnlen buf bufSize in
  if decide (nameSize >= bufSize) then []
  else c_str buf.

(** ** Streams *)

(** [class TscppException]: [what] is the message of the [runtime_error]
    base, [n] the type name the member function [name()] returns. *)
Module TscppException.
Record t := Make { what : string; n : list byte }.
(** The constructor taking only the message leaves the name empty. *)
Definition Make1 (what : string) : t := Make what [].
Definition name (e : t) : list byte := n e.
End TscppException.

(** A [void] function either returns or throws. *)
Inductive outcome := Return | Throw (e : TscppException.t).

(** [std::ostream]: the bytes written to the sink so far.  [os.write(s, n)]
    appends [n] bytes. *)
Definition ostream := list byte.

Definition write (os : ostream) (s : list byte) (n : Z) : ostream :=
  os ++ take (Z.to_nat n) s.

(** [std::istream] over a seekable source, with the C++11 semantics of the
    unformatted input functions. *)
Record istream := Istream {
  chars : list byte;   (* the whole byte sequence of the source *)
  gptr : nat;          (* the get position *)
  eofbit : bool;
  failbit : bool
}.

Definition good (is_ : istream) : bool := negb (eofbit is_) && negb (failbit is_).
Definition eof (is_ : istream) : bool := eofbit is_.
Definition fail (is_ : istream) : bool := failbit is_.

Definition set_eofbit (is_ : istream) : istream :=
  Istream (chars is_) (gptr is_) true (failbit is_).
Definition set_failbit (is_ : istream) : istream :=
  Istream (chars is_) (gptr is_) (eofbit is_) true.
Definition clear_eofbit (is_ : istream) : istream :=
  Istream (chars is_) (gptr is_) false (failbit is_).
Definition set_gptr (is_ : istream) (p : nat) : istream :=
  Istream (chars is_) p (eofbit is_) (failbit is_).

(** The bytes from the get position to the end of the source. *)
Definition remaining (is_ : istream) : list byte := drop (gptr is_) (chars is_).

(** [istream::sentry(is, true)]: input is attempted only on a good stream;
    otherwise [failbit] is set. *)
Definition sentry (is_ : istream) : bool * istream :=
  if good is_ then (true, is_) else (false, set_failbit is_).

(** [is.tellg()]: the get position, or -1 on a stream that is not good. *)
Definition tellg (is_ : istream) : Z * istream :=
  let '(ok, is_) := sentry is_ in
  if ok && negb (fail is_) then (Z.of_nat (gptr is_), is_) else (-1, is_).

(** [is.seekg(pos)]: clears [eofbit] first; a failed stream stays where it
    is, and a position outside the source sets [failbit]. *)
Definition seekg (is_ : istream) (pos : Z) : istream :=
  let is_ := clear_eofbit is_ in
  let '(ok, is_) := sentry is_ in
  if ok && negb (fail is_) then
    if decide (0 <= pos <= Z.of_nat (length (chars is_)))
    then set_gptr is_ (Z.to_nat pos)
    else set_failbit is_
  else is_.

(** [is.read(s, n)]: stores the bytes extracted at the start of [s]; fewer
    than [n] bytes available sets [eofbit] and [failbit]. *)
Definition read (is_ : istream) (s : list byte) (n : Z) : list byte * istream :=
  let '(ok, is_) := sentry is_ in
  if ok then
    let got := take (Z.to_nat n) (remaining is_) in
    let s := memcpy s got (Z.of_nat (length got)) in
    let is_ := set_gptr is_ (gptr is_ + length got)%nat in
    if decide (Z.of_nat (length got) <> n)
    then (s, set_failbit (set_eofbit is_))
    else (s, is_)
  else (s, is_).

(** [getline(is, str, delim)]: extracts bytes up to [delim], which is
    extracted and not stored; the end of the source sets [eofbit], and
    [failbit] too when nothing was extracted.  [str] keeps its value when
    the sentry fails. *)
Definition getline (is_ : istream) (str : list byte) (delim : byte)
    : list byte * istream :=
  let '(ok, is_) := sentry is_ in
  if ok then
    let k := count_until delim (remaining is_) in
    let str := take k (remaining is_) in
    if decide (k = length (remaining is_)) then
      let is_ := set_eofbit (set_gptr is_ (gptr is_ + k)%nat) in
      (str, if decide (k = O) then set_failbit is_ else is_)
    else (str, set_gptr is_ (gptr is_ + k + 1)%nat)
  else (str, is_).

(** [new char[k]]: the content is indeterminate; the code reads it only
    after [read] has filled it. *)
Definition new_char (k : Z) : list byte := replicate (Z.to_nat k) NUL.

Module OutputArchive.
(** [void OutputArchive::serializeImpl(const char *name, const void *data,
                                       int size)] *)
Definition serializeImpl (os : ostream) (name data : list byte) (size : Z)
    : ostream :=
  let nameSize := Z.of_nat (strlen name) in
  let os := write os name (nameSize + 1) in
  let os := write os data size in
  os.

(** [operator<<(OutputArchive& oa, const T& t)] *)
Definition put (T : ctype) (os : ostream) (t : list byte) : ostream :=
  serializeImpl os (type_name T) t (Z.of_nat (sizeof T)).
End OutputArchive.

Module InputArchive.
(** [void InputArchive::wrongType(streampos pos)]: always throws. *)
Definition wrongType (is_ : istream) (pos : Z) : TscppException.t * istream :=
  let is_ := seekg is_ pos in
  let name := [] in
  let '(name, is_) := getline is_ name NUL in
  let is_ := seekg is_ pos in
  (TscppException.Make "wrong type" name, is_).

(** [void InputArchive::unserializeImpl(const char *name, void *data, int size)]:
    the outcome, the content of [data] and the stream afterwards. *)
Definition unserializeImpl (is_ : istream) (name data : list byte) (size : Z)
    : outcome * list byte * istream :=
  let '(pos, is_) := tellg is_ in
  let nameSize := Z.of_nat (strlen name) in
  let unserializedName := new_char (nameSize + 1) in
  let '(unserializedName, is_) := read is_ unserializedName (nameSize + 1) in
  if eof is_ then (Throw (TscppException.Make1 "eof"), data, is_)
  else if decide (memcmp unserializedName name (nameSize + 1) <> 0) then
    let '(e, is_) := wrongType is_ pos in (Throw e, data, is_)
  else
    let '(data, is_) := read is_ data size in
    if eof is_ then (Throw (TscppException.Make1 "eof"), data, is_)
    else (Return, data, is_).

(** [operator>>(InputArchive& ia, T& t)] *)
Definition get (T : ctype) (is_ : istream) (t : list byte)
    : outcome * list byte * istream :=
  unserializeImpl is_ (type_name T) t (Z.of_nat (sizeof T)).
End InputArchive.

Section StreamPool.
Context {U : Type}.

(** [void TypePool::unserializeUnknownImpl(const string& name, istream& is,
                                           streampos pos) const] *)
Definition stream_unserializeUnknownImpl (types : TypePool U)
    (name : list byte) (is_ : istream) (pos : Z) (u : U)
    : outcome * istream * U :=
  match types !! name with
  | None =>
      let is_ := seekg is_ pos in
      (Throw (TscppException.Make "unknown type" name), is_, u)
  | Some it =>
      let unserialized := new_char (DeserializerImpl.size it) in
      let '(unserialized, is_) := read is_ unserialized (DeserializerImpl.size it) in
      if eof is_ then (Throw (TscppException.Make1 "eof"), is_, u)
      else (Return, is_, DeserializerImpl.usc it unserialized u)
  end.
End StreamPool.

Module UnknownInputArchive.
(** [void UnknownInputArchive::unserialize()] *)
Definition unserialize {U : Type} (is_ : istream) (tp : TypePool U) (u : U)
    : outcome * istream * U :=
  let '(pos, is_) := tellg is_ in
  let name := [] in
  let '(name, is_) := getline is_ name NUL in
  if eof is_ then (Throw (TscppException.Make1 "eof"), is_, u)
  else stream_unserializeUnknownImpl tp name is_ pos u.
End UnknownInputArchive.

(** ** The type pool of [stream.h] *)

(** [class TypePoolStream]: the member [types] maps a type name to a
    closure that reads the payload from the stream itself. *)
Abbreviation TypePoolStream U :=
  (gmap (list byte) (istream -> U -> outcome * istream * U)).

Module TypePoolStream.
(** [template <typename T> void TypePoolStream::registerType(
       std::function<void(T& t)> callback)]: the stored closure reads
    [sizeof(T)] bytes into a local [T t], throws on end of file, and hands
    [t] to the user callback otherwise. *)
Definition registerType {U : Type} (T : ctype) (callback : list byte -> U -> U)
    (types : TypePoolStream U) : TypePoolStream U :=
  <[ c_str (type_name T) :=
       fun is_ u =>
         let t := replicate (sizeof T) NUL in
         let '(t, is_) := read is_ t (Z.of_nat (sizeof T)) in
         if eof is_ then (Throw (TscppException.Make1 "eof"), is_, u)
         else (Return, is_, callback t u) ]> types.
End TypePoolStream.

(** ** The compile-time type tag ([typeid.h]) *)

(** [uint32_t] arithmetic wraps around modulo [2^32]. *)
Definition uint32 (z : Z) : Z := z mod 2 ^ 32.

Section TypeId.
(** Whether plain [char] is signed is implementation-defined. *)
Variable char_is_signed : bool.

(** The value of a [char] after integral promotion. *)
Definition char_value (c : byte) : Z :=
  let v := Z.of_N (Byte.to_N c) in
  if char_is_signed && bool_decide (128 <= v) then v - 256 else v.

(** [constexpr bool comptime_memcmp(const char *a, const char *b, size_t len)] *)
Fixpoint comptime_memcmp (a b : list byte) (len : nat) {struct len} : bool :=
  match len with
  | O => true
  | S len =>
      match a, b with
      | x :: a, y :: b =>
          if decide (x <> y) then false else comptime_memcmp a b len
      | _, _ => false   (* a read past the end of a literal is ill-formed *)
      end
  end.

(** The body of the [while(len--)] loop of [comptime_hash]. *)
Definition hash_step (hash : Z) (c : byte) : Z :=
  let hash := uint32 (hash + uint32 (char_value c)) in
  let hash := uint32 (hash + uint32 (Z.shiftl hash 10)) in
  let hash := Z.lxor hash (Z.shiftr hash 6) in
  hash.

Fixpoint comptime_hash_loop (hash : Z) (a : list byte) (len : Z) : Z :=
  match a with
  | [] => hash
  | c :: a => if decide (len = 0) then hash
              else comptime_hash_loop (hash_step hash c) a (len - 1)
  end.

(** [constexpr uint32_t comptime_hash(const char *a, size_t len)] *)
Definition comptime_hash (a : list byte) (len : Z) : Z :=
  let hash := 0 in
  let hash := comptime_hash_loop hash a len in
  let hash := uint32 (hash + uint32 (Z.shiftl hash 3)) in
  let hash := Z.lxor hash (Z.shiftr hash 11) in
  let hash := uint32 (hash + uint32 (Z.shiftl hash 15)) in
  hash.

Definition PRETTY_FUNCTION_PRE : list byte :=
  bytes "constexpr uint32_t tscpp::type_id() [with T = ".
Definition PRETTY_FUNCTION_POST : list byte :=
  bytes "; uint32_t = unsigned int]".

(** [template<typename T> constexpr uint32_t type_id()].  The argument is
    the text of [__PRETTY_FUNCTION__] in the instance for [T] (without
    the terminator, so that its length is [sizeof(PRETTY_FUNCTION) - 1]).
    [None] is a failed [static_assert]: the program does not compile.
    The [size_t] differences do not wrap: the one in the second assertion
    is taken after its guard, and the length passed to [comptime_hash] is
    not negative once both assertions hold ([prefix_suffix_disjoint]). *)
Definition type_id (PRETTY_FUNCTION : list byte) : option Z :=
  let PRETTY_FUNCTION_SIZEOF := Z.of_nat (length PRETTY_FUNCTION) in
  let PRETTY_FUNCTION_PRE_SIZEOF := Z.of_nat (length PRETTY_FUNCTION_PRE) in
  let PRETTY_FUNCTION_POST_SIZEOF := Z.of_nat (length PRETTY_FUNCTION_POST) in
  if negb (bool_decide (PRETTY_FUNCTION_PRE_SIZEOF < PRETTY_FUNCTION_SIZEOF) &&
           comptime_memcmp PRETTY_FUNCTION PRETTY_FUNCTION_PRE
             (Z.to_nat PRETTY_FUNCTION_PRE_SIZEOF))
  then None
  else if negb (bool_decide (PRETTY_FUNCTION_POST_SIZEOF < PRETTY_FUNCTION_SIZEOF) &&
                comptime_memcmp
                  (drop (Z.to_nat (PRETTY_FUNCTION_SIZEOF - PRETTY_FUNCTION_POST_SIZEOF))
                        PRETTY_FUNCTION)
                  PRETTY_FUNCTION_POST
                  (Z.to_nat PRETTY_FUNCTION_POST_SIZEOF))
  then None
  else
    Some (comptime_hash
            (drop (Z.to_nat PRETTY_FUNCTION_PRE_SIZEOF) PRETTY_FUNCTION)
            (PRETTY_FUNCTION_SIZEOF - PRETTY_FUNCTION_PRE_SIZEOF
             - PRETTY_FUNCTION_POST_SIZEOF)).

End TypeId.

(** The numeric value of a byte, from 0 to 255. *)
Definition byte_value (c : byte) : Z := Z.of_N (Byte.to_N c).

(** The hash as the specification words it, on a sequence of numbers:
    seed 0; for each byte [h += byte; h += h<<10; h ^= h>>6]; finalized
    with [h += h<<3; h ^= h>>11; h += h<<15], on 32-bit words. *)
Definition spec_mix (h : Z) (byte : Z) : Z :=
  let h := (h + byte) mod 2 ^ 32 in
  let h := (h + Z.shiftl h 10) mod 2 ^ 32 in
  Z.lxor h (Z.shiftr h 6).

Definition spec_one_at_a_time (s : list Z) : Z :=
  let h := fold_left spec_mix s 0 in
  let h := (h + Z.shiftl h 3) mod 2 ^ 32 in
  let h := Z.lxor h (Z.shiftr h 11) in
  (h + Z.shiftl h 15) mod 2 ^ 32.

(** ** The wire format *)

(** The record length [len(tag) + 1 + sizeof(T)]. *)
Definition record_length (T : ctype) : Z :=
  Z.of_nat (length (c_str (type_name T))) + 1 + Z.of_nat (sizeof T).

(** The record [tag ++ terminator ++ payload] of the wire format. *)
Definition record (T : ctype) (v : list byte) : list byte :=
  c_str (type_name T) ++ [NUL] ++ v.

(** A good stream: no state flag is set. *)
Definition good_stream (c : list byte) (g : nat) : istream :=
  Istream c g false false.

(** ** Types and a pool for the examples *)

(** A four-byte type with tag ["i"], used in the examples. *)
Definition ex_int : ctype := CType (bytes "i" ++ [NUL]) 4 eq_refl.
Definition ex_char : ctype := CType (bytes "c" ++ [NUL]) 1 eq_refl.

(** The state of the examples: the payloads delivered to the callback. *)
Definition ex_pool : TypePool (list (list byte)) :=
  registerType ex_int (fun t u => t :: u) ∅.

(** Discharges a decidable side condition on concrete data by evaluation. *)
Ltac by_evaluation :=
  unfold has_type, c_string, record_length;
  first [ reflexivity
        | apply (bool_decide_unpack _); vm_compute; exact I ].

(** * Properties *)

(** ** Scanning for a delimiter *)

Section Scan.
Variable d : byte.
Implicit Types s t r : list byte.

Lemma count_until_le s : (count_until d s <= length s)%nat.
Proof. induction s as [|c s IH]; simpl; [lia|]. case_decide; lia. Qed.

Lemma count_until_app t r : d ∉ t -> count_until d (t ++ d :: r) = length t.
Proof.
  induction t as [|c t IH]; simpl; intros Hd.
  - by rewrite decide_True.
  - apply not_elem_of_cons in Hd as [Hc Ht].
    rewrite decide_False by congruence. by rewrite IH.
Qed.

Lemma count_until_all s : d ∉ s -> count_until d s = length s.
Proof.
  induction s as [|c s IH]; simpl; intros Hd; [done|].
  apply not_elem_of_cons in Hd as [Hc Hs].
  rewrite decide_False by congruence. by rewrite IH.
Qed.

Lemma count_until_prefix s : d ∉ take (count_until d s) s.
Proof.
  induction s as [|c s IH]; simpl; [apply not_elem_of_nil|].
  case_decide; simpl; [apply not_elem_of_nil|].
  apply not_elem_of_cons. split; [congruence|done].
Qed.

Lemma count_until_split s :
  d ∈ s -> s = take (count_until d s) s ++ d :: drop (S (count_until d s)) s.
Proof.
  induction s as [|c s IH]; simpl; intros Hd.
  - by apply elem_of_nil in Hd.
  - case_decide as Hc; simpl; [by rewrite Hc, drop_0|].
    apply elem_of_cons in Hd as [Hd|Hd]; [congruence|].
    f_equal. by apply IH.
Qed.

Lemma count_until_lt s : d ∈ s -> (count_until d s < length s)%nat.
Proof.
  intros Hd. rewrite (count_until_split s Hd) at 2.
  rewrite length_app, length_take_le by apply count_until_le. simpl. lia.
Qed.

Lemma count_until_take n s :
  count_until d (take n s) = (n `min` count_until d s)%nat.
Proof.
  revert n. induction s as [|c s IH]; intros [|n]; simpl; try done.
  case_decide; [done|]. by rewrite IH.
Qed.

Lemma count_until_inv s t r :
  d ∉ t -> s = t ++ d :: r -> take (count_until d s) s = t.
Proof.
  intros Hd ->. rewrite count_until_app by done. apply take_app_length.
Qed.
End Scan.

(** ** C strings *)

Lemma strlen_le s : (strlen s <= length s)%nat.
Proof. apply count_until_le. Qed.

Lemma c_str_length s : length (c_str s) = strlen s.
Proof. unfold c_str. apply length_take_le, strlen_le. Qed.

Lemma c_str_no_NUL s : NUL ∉ c_str s.
Proof. apply count_until_prefix. Qed.

Lemma c_string_split name :
  c_string name -> name = c_str name ++ NUL :: drop (S (strlen name)) name.
Proof. apply count_until_split. Qed.

(** The name with its terminator, as [memcpy(buf, name, nameSize+1)] and
    [os.write(name, nameSize+1)] take it. *)
Lemma take_name_terminator name :
  c_string name ->
  take (Z.to_nat (Z.of_nat (strlen name) + 1)) name = c_str name ++ [NUL].
Proof.
  intros Hn. replace (Z.to_nat _) with (strlen name + 1)%nat by lia.
  rewrite (c_string_split name Hn) at 2.
  rewrite take_app_add' by (by rewrite c_str_length). done.
Qed.

Lemma take_tag_terminator name r :
  take (strlen name + 1) (c_str name ++ NUL :: r) = c_str name ++ [NUL].
Proof.
  rewrite (cons_middle NUL), app_assoc. apply take_app_length'.
  rewrite length_app, c_str_length. simpl. lia.
Qed.

Lemma drop_tag_terminator name r :
  drop (strlen name + 1) (c_str name ++ NUL :: r) = r.
Proof.
  rewrite (cons_middle NUL), app_assoc. apply drop_app_length'.
  rewrite length_app, c_str_length. simpl. lia.
Qed.

Lemma strlen_record tag r : NUL ∉ tag -> strlen (tag ++ NUL :: r) = length tag.
Proof. apply count_until_app. Qed.

Lemma c_str_record tag r : NUL ∉ tag -> c_str (tag ++ NUL :: r) = tag.
Proof. intros H. by apply (count_until_inv NUL _ tag r). Qed.

Lemma strnlen_min s n :
  0 <= n -> strnlen s n = Z.of_nat (strlen s) `min` n.
Proof.
  unfold strlen. revert n. induction s as [|c s IH]; intros n Hn; simpl.
  - lia.
  - case_decide; [lia|]. case_decide; [simpl; lia|].
    rewrite IH by lia. lia.
Qed.

Lemma strnlen_negative s n : n < 0 -> strnlen s n = Z.of_nat (strlen s).
Proof.
  unfold strlen. revert n. induction s as [|c s IH]; intros n Hn; simpl.
  - done.
  - rewrite decide_False by lia. case_decide; [done|].
    rewrite IH by lia. lia.
Qed.

Lemma strnlen_nonneg s n : 0 <= strnlen s n.
Proof.
  revert n. induction s as [|c s IH]; intros n; simpl; [lia|].
  repeat case_decide; try lia. specialize (IH (n - 1)). lia.
Qed.

(** ** Copies *)

Lemma memcpy_eq dst src n :
  0 <= n -> (Z.to_nat n <= length src)%nat -> (Z.to_nat n <= length dst)%nat ->
  memcpy dst src n = take (Z.to_nat n) src ++ drop (Z.to_nat n) dst.
Proof.
  intros Hn Hs Hd. unfold memcpy.
  rewrite <- (take_drop (Z.to_nat n) dst) at 1.
  apply list_inserts_0_r. rewrite !length_take_le; lia.
Qed.

Lemma memcpy_length dst src n : length (memcpy dst src n) = length dst.
Proof. apply length_inserts. Qed.

Lemma memcmp_eq a b n :
  memcmp a b n = 0 <-> take (Z.to_nat n) a = take (Z.to_nat n) b.
Proof. unfold memcmp. case_decide; split; intros; done. Qed.

(** ** Sums of type [int] *)

Lemma to_int_in_range z : INT_MIN <= z <= INT_MAX -> to_int z = z.
Proof.
  unfold INT_MIN, INT_MAX, to_int. intros Hz.
  rewrite Z.mod_small by lia. lia.
Qed.

Lemma to_int_range z : INT_MIN <= to_int z <= INT_MAX.
Proof.
  unfold INT_MIN, INT_MAX, to_int.
  pose proof (Z.mod_pos_bound (z + 2147483648) 4294967296). lia.
Qed.

(** The record length as the code computes it, when it is an [int]. *)
Lemma record_sum_int (n : nat) size :
  0 <= size -> Z.of_nat n + 1 + size <= INT_MAX ->
  int_add (int_add (Z.of_nat n) 1) size = Z.of_nat n + 1 + size.
Proof.
  intros Hs Hm. unfold int_add.
  rewrite (to_int_in_range (Z.of_nat n + 1)) by (unfold INT_MIN, INT_MAX in *; lia).
  apply to_int_in_range. unfold INT_MIN, INT_MAX in *. lia.
Qed.

(** ** Buffer API: known types *)

Lemma record_has_length T v :
  has_type T v -> Z.of_nat (length (record T v)) = record_length T.
Proof.
  unfold has_type, record, record_length. intros Hv.
  rewrite !length_app. simpl. lia.
Qed.


Lemma serializeImpl_fits buffer bufSize name data size :
  c_string name ->
  0 <= size -> (Z.to_nat size <= length data)%nat ->
  Z.of_nat (strlen name) + 1 + size <= INT_MAX ->
  Z.of_nat (strlen name) + 1 + size <= bufSize <= Z.of_nat (length buffer) ->
  serializeImpl buffer bufSize name data size =
    (Z.of_nat (strlen name) + 1 + size,
     c_str name ++ [NUL] ++ take (Z.to_nat size) data
       ++ drop (Z.to_nat (Z.of_nat (strlen name) + 1 + size)) buffer).
Proof.
  intros Hn Hsz Hd Hm Hb. unfold serializeImpl.
  rewrite record_sum_int by done.
  rewrite decide_False by lia. f_equal.
  pose proof (strlen_le name) as Hle.
  pose proof (count_until_lt NUL name Hn) as Hlt. fold (strlen name) in Hlt.
  rewrite memcpy_eq by lia.
  rewrite take_name_terminator by done.
  set (k := Z.to_nat (Z.of_nat (strlen name) + 1)).
  assert (Hk : length (c_str name ++ [NUL]) = k).
  { rewrite length_app, c_str_length. simpl. lia. }
  unfold at_offset. fold k.
  rewrite take_app_length', drop_app_length' by done.
  rewrite memcpy_eq by (rewrite ?length_drop; lia).
  rewrite drop_drop, <- !app_assoc. simpl. do 4 f_equal. subst k. lia.
Qed.


Lemma unserializeImpl_record name data size payload rest bufSize :
  c_string name ->
  length payload = Z.to_nat size -> 0 <= size ->
  (Z.to_nat size <= length data)%nat ->
  Z.of_nat (strlen name) + 1 + size <= INT_MAX ->
  Z.of_nat (strlen name) + 1 + size <= bufSize ->
  unserializeImpl name data size (c_str name ++ [NUL] ++ payload ++ rest) bufSize =
    (Z.of_nat (strlen name) + 1 + size, payload ++ drop (Z.to_nat size) data).
Proof.
  intros Hn Hp Hsz Hd Hm Hb. unfold unserializeImpl.
  rewrite record_sum_int by done.
  rewrite decide_False by lia.
  set (k := Z.to_nat (Z.of_nat (strlen name) + 1)).
  assert (Hk : length (c_str name ++ [NUL]) = k).
  { rewrite length_app, c_str_length. simpl. lia. }
  rewrite decide_False; cycle 1.
  { intros Hc. apply Hc, memcmp_eq.
    rewrite (app_assoc (c_str name)), take_app_length' by done.
    unfold k. by rewrite take_name_terminator. }
  f_equal. rewrite (app_assoc (c_str name)), drop_app_length' by done.
  rewrite memcpy_eq by (rewrite ?length_app; lia).
  by rewrite take_app_length'.
Qed.


(** Beyond the range of [int] the sum of the code wraps around: with a
    one-byte tag and [size = INT_MAX] the sum is [-2147483647], which is
    not greater than a [bufSize] of 6, and with [size = INT_MAX - 1] it is
    [INT_MIN], which is not greater than [INT_MAX]; the size check passes
    and the wrapped sum is returned. *)
Lemma serializeImpl_sum_wraps buffer data :
  fst (serializeImpl buffer 6 (bytes "i" ++ [NUL]) data INT_MAX)
    = -2147483647 /\
  fst (serializeImpl buffer INT_MAX (bytes "i" ++ [NUL]) data (INT_MAX - 1))
    = INT_MIN.
Proof.
  split; unfold serializeImpl;
    (rewrite decide_False by (vm_compute; discriminate)); cbn [fst];
    by vm_compute.
Qed.

(** A terminated tag that agrees with another one up to and including that
    one's terminator is the same tag. *)
Lemma tag_prefix_inj tag1 tag2 r :
  NUL ∉ tag1 -> NUL ∉ tag2 ->
  take (length tag2 + 1) (tag1 ++ NUL :: r) = tag2 ++ [NUL] ->
  tag1 = tag2.
Proof.
  intros H1 H2 E.
  assert (El := f_equal (count_until NUL) E).
  rewrite count_until_take, !count_until_app in El by done.
  assert (length tag1 = length tag2) as Hl by lia.
  apply (f_equal (take (length tag2))) in E.
  rewrite take_take, Nat.min_l in E by lia.
  rewrite take_app_length in E. rewrite <- Hl in E.
  by rewrite take_app_length in E.
Qed.

Lemma unserializeImpl_mismatch name data size tag rest bufSize :
  c_string name -> NUL ∉ tag -> tag <> c_str name ->
  0 <= size -> Z.of_nat (strlen name) + 1 + size <= INT_MAX ->
  Z.of_nat (strlen name) + 1 + size <= bufSize ->
  unserializeImpl name data size (tag ++ NUL :: rest) bufSize = (TypeMismatch, data).
Proof.
  intros Hn Ht Hne Hsz Hm Hb. unfold unserializeImpl.
  rewrite record_sum_int by done.
  rewrite decide_False by lia.
  rewrite decide_True; [done|].
  intros Hc. apply memcmp_eq in Hc. apply Hne.
  rewrite take_name_terminator in Hc by done.
  replace (Z.to_nat _) with (length (c_str name) + 1)%nat in Hc
    by (rewrite c_str_length; lia).
  eapply tag_prefix_inj; eauto using c_str_no_NUL.
Qed.

Lemma record_length_eq T :
  record_length T = Z.of_nat (strlen (type_name T)) + 1 + Z.of_nat (sizeof T).
Proof. unfold record_length. by rewrite c_str_length. Qed.

(** The record length of a [ctype] is an [int]. *)
Lemma record_length_int T :
  Z.of_nat (strlen (type_name T)) + 1 + Z.of_nat (sizeof T) <= INT_MAX.
Proof. apply Z.leb_le, record_fits_int. Qed.

Lemma serialize_fits T buffer bufSize v :
  c_string (type_name T) -> has_type T v ->
  record_length T <= bufSize <= Z.of_nat (length buffer) ->
  serialize T buffer bufSize v =
    (record_length T,
     record T v ++ drop (Z.to_nat (record_length T)) buffer).
Proof.
  intros Hn Hv Hb. rewrite record_length_eq in *. unfold serialize, record.
  unfold has_type in Hv. pose proof (record_length_int T) as Hm.
  rewrite serializeImpl_fits by (done || lia).
  rewrite Nat2Z.id, <- Hv, firstn_all. by rewrite <- !app_assoc.
Qed.

Lemma unserialize_record T t v rest bufSize :
  c_string (type_name T) -> has_type T v -> has_type T t ->
  record_length T <= bufSize ->
  unserialize T t (record T v ++ rest) bufSize = (record_length T, v).
Proof.
  intros Hn Hv Ht Hb. rewrite record_length_eq in *. unfold unserialize, record.
  unfold has_type in Hv, Ht. rewrite <- !app_assoc.
  pose proof (record_length_int T) as Hm.
  rewrite unserializeImpl_record by (done || lia).
  rewrite Nat2Z.id, <- Ht, drop_all. by rewrite app_nil_r.
Qed.

(** C2.  Round trip on the buffer API: for a trivially copyable type [T]
    and a value [v], [serialize] into a buffer that is large enough followed
    by [unserialize] of that buffer for the same [T] gives back exactly the
    bytes of [v], and both calls return [len(tag) + 1 + sizeof(T)]. *)
Theorem serialize_unserialize_roundtrip
    (T : ctype) (v t buffer : list byte) (bufSize : Z) :
  c_string (type_name T) -> has_type T v -> has_type T t ->
  record_length T <= bufSize <= Z.of_nat (length buffer) ->
  fst (serialize T buffer bufSize v) = record_length T /\
  unserialize T t (snd (serialize T buffer bufSize v)) bufSize
    = (record_length T, v).
Proof.
  intros Hn Hv Ht Hb. rewrite serialize_fits by done. simpl.
  split; [done|]. apply unserialize_record; (done || lia).
Qed.

Lemma serialize_unserialize_roundtrip_witness :
  let buffer := replicate 8 NUL in
  fst (serialize ex_int buffer 8 (bytes "wxyz")) = 6 /\
  unserialize ex_int (bytes "....") (snd (serialize ex_int buffer 8 (bytes "wxyz"))) 8
    = (6, bytes "wxyz").
Proof.
  apply (serialize_unserialize_roundtrip ex_int (bytes "wxyz") (bytes "....")
           (replicate 8 NUL) 8); by_evaluation.
Defined.




(** ** Stream API: writing *)

Lemma OutputArchive_put_record T os v :
  c_string (type_name T) -> has_type T v ->
  OutputArchive.put T os v = os ++ record T v.
Proof.
  intros Hn Hv. unfold OutputArchive.put, OutputArchive.serializeImpl, write, record.
  rewrite take_name_terminator by done.
  unfold has_type in Hv. rewrite Nat2Z.id, <- Hv, firstn_all.
  by rewrite <- !app_assoc.
Qed.

(** C7.  The bytes the stream write appends and the bytes [serialize] puts
    at the start of a buffer that is large enough are the same record
    [tag ++ terminator ++ payload], of length [len(tag) + 1 + sizeof(v)];
    the rest of the buffer keeps its content. *)
Theorem stream_write_equals_buffer_serialize
    (T : ctype) (v : list byte) (os : ostream) (buffer : list byte) (bufSize : Z) :
  c_string (type_name T) -> has_type T v ->
  record_length T <= bufSize <= Z.of_nat (length buffer) ->
  OutputArchive.put T os v = os ++ record T v /\
  serialize T buffer bufSize v =
    (record_length T, record T v ++ drop (Z.to_nat (record_length T)) buffer) /\
  record T v = c_str (type_name T) ++ [NUL] ++ v /\
  Z.of_nat (length (record T v)) =
    Z.of_nat (length (c_str (type_name T))) + 1 + Z.of_nat (length v).
Proof.
  intros Hn Hv Hb. split; [by apply OutputArchive_put_record|].
  split; [by apply serialize_fits|]. split; [done|].
  rewrite record_has_length by done. unfold record_length.
  unfold has_type in Hv. lia.
Qed.

Lemma stream_write_equals_buffer_serialize_witness :
  OutputArchive.put ex_int (bytes "head") (bytes "wxyz")
    = bytes "head" ++ record ex_int (bytes "wxyz") /\
  serialize ex_int (bytes "0123456789") 10 (bytes "wxyz")
    = (6, record ex_int (bytes "wxyz") ++ bytes "6789") /\
  record ex_int (bytes "wxyz") = bytes "i" ++ [NUL] ++ bytes "wxyz" /\
  Z.of_nat (length (record ex_int (bytes "wxyz"))) = 1 + 1 + 4.
Proof.
  apply (stream_write_equals_buffer_serialize ex_int (bytes "wxyz")
           (bytes "head") (bytes "0123456789") 10); by_evaluation.
Defined.

(** ** Buffer API: unknown types *)

Section PoolProperties.
Context {U : Type}.
Implicit Types (tp : TypePool U) (u : U).

(** A buffer whose first [bufSize] bytes hold a terminated tag. *)
Lemma strnlen_bounded_tag tag rest bufSize :
  NUL ∉ tag -> Z.of_nat (length tag) < bufSize ->
  strnlen (tag ++ NUL :: rest) bufSize = Z.of_nat (length tag).
Proof.
  intros Ht Hb. rewrite strnlen_min, strlen_record by (done || lia). lia.
Qed.

(** What [unserializeUnknown] returns when the pool lookup fails: the
    error code with the length of the tag and of the terminator added. *)
Lemma unserializeUnknown_absent tp tag rest bufSize u :
  NUL ∉ tag -> Z.of_nat (length tag) < bufSize ->
  tp !! tag = None ->
  unserializeUnknown tp (tag ++ NUL :: rest) bufSize u
    = (TypeNotFound + Z.of_nat (length tag) + 1, u).
Proof.
  intros Ht Hb Hl. unfold unserializeUnknown.
  rewrite strnlen_bounded_tag by done.
  rewrite decide_False by lia. unfold unserializeUnknownImpl.
  by rewrite c_str_record, Hl.
Qed.

Lemma unserializeUnknown_truncated tp tag rest bufSize u it :
  NUL ∉ tag -> Z.of_nat (length tag) < bufSize ->
  tp !! tag = Some it ->
  bufSize - (Z.of_nat (length tag) + 1) < DeserializerImpl.size it ->
  unserializeUnknown tp (tag ++ NUL :: rest) bufSize u
    = (BufferTooSmall + Z.of_nat (length tag) + 1, u).
Proof.
  intros Ht Hb Hl Hs. unfold unserializeUnknown.
  rewrite strnlen_bounded_tag by done.
  rewrite decide_False by lia. unfold unserializeUnknownImpl.
  rewrite c_str_record, Hl by done. by rewrite decide_True by lia.
Qed.

Lemma unserializeUnknown_found tp tag rest bufSize u it :
  NUL ∉ tag -> Z.of_nat (length tag) < bufSize ->
  tp !! tag = Some it ->
  DeserializerImpl.size it <= bufSize - (Z.of_nat (length tag) + 1) ->
  unserializeUnknown tp (tag ++ NUL :: rest) bufSize u
    = (DeserializerImpl.size it + Z.of_nat (length tag) + 1,
       DeserializerImpl.usc it rest u).
Proof.
  intros Ht Hb Hl Hs. unfold unserializeUnknown.
  rewrite strnlen_bounded_tag by done.
  rewrite decide_False by lia. unfold unserializeUnknownImpl.
  rewrite c_str_record, Hl by done. rewrite decide_False by lia.
  replace (Z.to_nat _) with (length tag + 1)%nat by lia.
  rewrite (cons_middle NUL), app_assoc, drop_app_length'; [done|].
  rewrite length_app. simpl. lia.
Qed.
End PoolProperties.

(** C1.  The code does not do what the claim says.  With the tag ["ab"]
    absent from the (empty) pool, [unserializeUnknown] returns
    [TypeNotFound + 3 = 0], which is neither the code for an unknown type
    nor negative; with the tag ["i"] registered for a four-byte type and
    only three payload bytes in the buffer it returns
    [BufferTooSmall + 2 = 1], a non-negative count, where a record that is
    complete gives [6]. *)
Theorem unserializeUnknown_error_code_shifted :
  unserializeUnknown (U := list (list byte)) ∅ (bytes "ab" ++ [NUL] ++ bytes "wxyz") 7 []
    = (0, []) /\
  UnknownType = -3 /\
  unserializeUnknown ex_pool (bytes "i" ++ [NUL] ++ bytes "wxy") 5 [] = (1, []) /\
  BufferTooSmall = -1 /\
  unserializeUnknown ex_pool (bytes "i" ++ [NUL] ++ bytes "wxyz") 6 []
    = (6, [bytes "wxyz"]).
Proof. repeat split. Qed.

(** ** [peekTypeName] *)

(** [peekTypeName] looks at the first [bufSize] bytes only: what lies
    behind them does not matter. *)
Lemma peekTypeName_within_bounds buffer bufSize other :
  0 <= bufSize <= Z.of_nat (length buffer) ->
  peekTypeName (take (Z.to_nat bufSize) buffer ++ other) bufSize
    = peekTypeName buffer bufSize.
Proof.
  intros Hb. unfold peekTypeName. rewrite !strnlen_min by lia.
  set (n := Z.to_nat bufSize).
  assert (Hn : length (take n buffer) = n) by (apply length_take_le; lia).
  assert (E1 : count_until NUL (take n (take n buffer ++ other))
               = count_until NUL (take n buffer)).
  { by rewrite take_app_length'. }
  rewrite !count_until_take in E1. fold (strlen buffer) in E1.
  fold (strlen (take n buffer ++ other)) in E1.
  destruct (decide (strlen buffer < n)%nat) as [Hlt|Hge].
  - rewrite !decide_False by lia. unfold c_str.
    replace (strlen (take n buffer ++ other)) with (strlen buffer) by lia.
    rewrite take_app_le by lia. rewrite take_take. f_equal. lia.
  - by rewrite !decide_True by lia.
Qed.

(** C9.  [peekTypeName] only reads: its result is a function of the buffer
    and the size, and the embedding has no buffer or cursor to return (the
    buffer is taken through a pointer to [const], and the buffer API keeps
    no position).  It returns the leading tag when the terminator is among
    the first [bufSize] bytes (any such buffer is [tag ++ NUL :: rest] with
    a tag shorter than [bufSize]), and the empty string when the bytes
    within the bounds hold no terminator. *)
Theorem peekTypeName_reads_leading_tag
    (tag rest : list byte) (bufSize : Z) (buffer' : list byte) (bufSize' : Z) :
  NUL ∉ tag -> Z.of_nat (length tag) < bufSize ->
  bufSize' <= Z.of_nat (length buffer') ->
  NUL ∉ take (Z.to_nat bufSize') buffer' ->
  peekTypeName (tag ++ NUL :: rest) bufSize = tag /\
  peekTypeName buffer' bufSize' = [].
Proof.
  intros Ht Hl Hb Hn. split.
  - unfold peekTypeName.
    rewrite strnlen_bounded_tag by done. rewrite decide_False by lia.
    by apply c_str_record.
  - unfold peekTypeName.
    destruct (decide (bufSize' <= 0)) as [Hneg|Hpos].
    { rewrite decide_True; [done|].
      pose proof (strnlen_nonneg buffer' bufSize'). lia. }
    rewrite strnlen_min by lia.
    assert (E := count_until_take NUL (Z.to_nat bufSize') buffer').
    rewrite (count_until_all NUL _ Hn), length_take_le in E by lia.
    fold (strlen buffer') in E. rewrite decide_True; [done|]. lia.
Qed.

Lemma peekTypeName_reads_leading_tag_witness :
  peekTypeName (bytes "ab" ++ NUL :: bytes "wxyz") 7 = bytes "ab" /\
  peekTypeName (bytes "ab" ++ NUL :: bytes "wxyz") 2 = [].
Proof.
  apply (peekTypeName_reads_leading_tag (bytes "ab") (bytes "wxyz") 7
           (bytes "ab" ++ NUL :: bytes "wxyz") 2); by_evaluation.
Defined.

(** ** Streams: the member functions on a good stream *)

Lemma good_is_good_stream is_ :
  good is_ = true -> is_ = good_stream (chars is_) (gptr is_).
Proof. destruct is_ as [c g [] []]; simpl; done. Qed.

Lemma tellg_good c g :
  tellg (good_stream c g) = (Z.of_nat g, good_stream c g).
Proof. done. Qed.

Lemma seekg_no_failbit c g e pos :
  0 <= pos <= Z.of_nat (length c) ->
  seekg (Istream c g e false) pos = good_stream c (Z.to_nat pos).
Proof.
  intros Hp. unfold seekg, sentry, good. simpl.
  by rewrite decide_True by done.
Qed.

(** Enough bytes: [read] fills the first [n] bytes of [s]. *)
Lemma read_good_full c g s n :
  0 <= n -> (Z.to_nat n <= length (drop g c))%nat ->
  (Z.to_nat n <= length s)%nat ->
  read (good_stream c g) s n =
    (take (Z.to_nat n) (drop g c) ++ drop (Z.to_nat n) s,
     good_stream c (g + Z.to_nat n)).
Proof.
  intros Hn Hr Hs. unfold read, sentry, good, remaining. simpl.
  rewrite length_take_le by done.
  rewrite decide_False by lia.
  rewrite memcpy_eq by (rewrite ?length_take_le; lia).
  rewrite Nat2Z.id, take_take, Nat.min_id. done.
Qed.

(** Too few bytes: [read] stores what is there and sets both flags. *)
Lemma read_good_short c g s n :
  Z.of_nat (length (drop g c)) < n ->
  (length (drop g c) <= length s)%nat ->
  read (good_stream c g) s n =
    (drop g c ++ drop (length (drop g c)) s,
     Istream c (g + length (drop g c)) true true).
Proof.
  intros Hn Hs. unfold read, sentry, good, remaining. simpl.
  rewrite take_ge by lia.
  rewrite decide_True by lia.
  rewrite memcpy_eq by lia.
  rewrite Nat2Z.id, firstn_all. done.
Qed.

Lemma getline_good_delim c g str d tag rest :
  drop g c = tag ++ d :: rest -> d ∉ tag ->
  getline (good_stream c g) str d = (tag, good_stream c (g + length tag + 1)).
Proof.
  intros Hr Hd. unfold getline, sentry, good, remaining. simpl.
  rewrite Hr, count_until_app by done.
  rewrite decide_False by (rewrite length_app; simpl; lia).
  by rewrite take_app_length.
Qed.

Lemma getline_good_eof c g str d :
  d ∉ drop g c ->
  getline (good_stream c g) str d =
    (drop g c,
     Istream c (g + length (drop g c)) true (bool_decide (drop g c = []))).
Proof.
  intros Hd. unfold getline, sentry, good, remaining. simpl.
  rewrite count_until_all by done. rewrite decide_True by done.
  rewrite firstn_all. f_equal.
  destruct (drop g c) as [|x r] eqn:E; simpl; done.
Qed.

(** [wrongType] on a stream without [failbit] and with at least one byte
    at [pos]: the name thrown is the C string at [pos], and the stream is
    good again, positioned at [pos]. *)
Lemma wrongType_rewinds c g' e g :
  (g < length c)%nat ->
  InputArchive.wrongType (Istream c g' e false) (Z.of_nat g) =
    (TscppException.Make "wrong type" (c_str (drop g c)), good_stream c g).
Proof.
  intros Hg. unfold InputArchive.wrongType.
  rewrite seekg_no_failbit, Nat2Z.id by lia.
  destruct (decide (NUL ∈ drop g c)) as [Hin|Hout].
  - pose proof (count_until_split NUL _ Hin) as Hs.
    rewrite (getline_good_delim c g [] NUL _ _ Hs)
      by apply count_until_prefix.
    unfold good_stream. rewrite seekg_no_failbit, Nat2Z.id by lia. done.
  - rewrite getline_good_eof by done.
    rewrite bool_decide_eq_false_2.
    + rewrite seekg_no_failbit, Nat2Z.id by lia.
      unfold c_str, strlen. by rewrite count_until_all, firstn_all.
    + intros E. apply (f_equal length) in E.
      rewrite length_drop in E. simpl in E. lia.
Qed.

(** ** Stream API: reading a known type *)

Lemma new_char_length k : length (new_char k) = Z.to_nat k.
Proof. apply length_replicate. Qed.

(** The first read of [unserializeImpl] when the tag and its terminator are
    available: the scratch array holds the bytes of the stream. *)
Lemma read_name_full c g name :
  (strlen name + 1 <= length (drop g c))%nat ->
  read (good_stream c g) (new_char (Z.of_nat (strlen name) + 1))
       (Z.of_nat (strlen name) + 1) =
    (take (strlen name + 1) (drop g c), good_stream c (g + (strlen name + 1))).
Proof.
  intros Hr.
  rewrite read_good_full by (rewrite ?new_char_length; lia).
  rewrite (drop_ge (new_char _)), app_nil_r by (rewrite new_char_length; lia).
  by replace (Z.to_nat _) with (strlen name + 1)%nat by lia.
Qed.

(** The tag read differs from the expected one: ["wrong type"] with the
    string found at the recorded position, nothing else changed. *)
Lemma InputArchive_wrong_tag c g name data size :
  c_string name ->
  (strlen name + 1 <= length (drop g c))%nat ->
  take (strlen name + 1) (drop g c) <> c_str name ++ [NUL] ->
  InputArchive.unserializeImpl (good_stream c g) name data size =
    (Throw (TscppException.Make "wrong type" (c_str (drop g c))),
     data, good_stream c g).
Proof.
  intros Hn Hr Hne. unfold InputArchive.unserializeImpl.
  rewrite tellg_good, read_name_full by done. simpl.
  rewrite decide_True; cycle 1.
  { intros Hc. apply memcmp_eq in Hc. apply Hne.
    rewrite take_name_terminator in Hc by done. rewrite <- Hc.
    replace (Z.to_nat _) with (strlen name + 1)%nat by lia.
    by rewrite take_take, Nat.min_id. }
  unfold good_stream. rewrite wrongType_rewinds; [done|].
  rewrite length_drop in Hr. lia.
Qed.

(** C3.  Known-type stream read on a good stream that holds at least
    [len(tag) + 1] bytes: when these bytes differ from the expected tag and
    terminator, the function throws ["wrong type"] carrying the string found
    at the recorded position (the bytes before the first terminator), and
    the stream is left as it was at the start of the read, the cursor at
    the recorded position; the destination is not written. *)
Theorem InputArchive_wrong_type_rewinds
    (is_ : istream) (name data : list byte) (size : Z) :
  good is_ = true -> c_string name ->
  (strlen name + 1 <= length (remaining is_))%nat ->
  take (strlen name + 1) (remaining is_) <> c_str name ++ [NUL] ->
  InputArchive.unserializeImpl is_ name data size =
    (Throw (TscppException.Make "wrong type" (c_str (remaining is_))),
     data, is_) /\
  fst (tellg is_) = Z.of_nat (gptr is_).
Proof.
  intros Hg Hn Hr Hne. rewrite (good_is_good_stream is_ Hg) at 1 3 4.
  unfold remaining in *. destruct is_ as [c g e f]; simpl in *.
  split; [|done]. by apply InputArchive_wrong_tag.
Qed.

Lemma InputArchive_wrong_type_rewinds_witness :
  InputArchive.unserializeImpl
    (good_stream (bytes "head" ++ bytes "ab" ++ NUL :: bytes "wxyz") 4)
    (bytes "i" ++ [NUL]) (bytes "....") 4 =
  (Throw (TscppException.Make "wrong type" (bytes "ab")), bytes "....",
   good_stream (bytes "head" ++ bytes "ab" ++ NUL :: bytes "wxyz") 4) /\
  fst (tellg (good_stream (bytes "head" ++ bytes "ab" ++ NUL :: bytes "wxyz") 4)) = 4.
Proof.
  apply (InputArchive_wrong_type_rewinds
           (good_stream (bytes "head" ++ bytes "ab" ++ NUL :: bytes "wxyz") 4)
           (bytes "i" ++ [NUL]) (bytes "....") 4); by_evaluation.
Defined.

(** C10.  Known-type stream read on a good stream whose tag matches and
    whose payload is cut short: the function throws ["eof"] after the bytes
    that were available have been stored at the start of the destination,
    and the cursor stays at the end of the source, past the record start. *)
Theorem InputArchive_truncated_payload_not_atomic
    (is_ : istream) (name data payload : list byte) (size : Z) :
  good is_ = true -> c_string name ->
  remaining is_ = c_str name ++ [NUL] ++ payload ->
  Z.of_nat (length payload) < size <= Z.of_nat (length data) ->
  InputArchive.unserializeImpl is_ name data size =
    (Throw (TscppException.Make1 "eof"),
     payload ++ drop (length payload) data,
     Istream (chars is_) (length (chars is_)) true true) /\
  (gptr is_ < length (chars is_))%nat.
Proof.
  intros Hg Hn Hr Hs. rewrite (good_is_good_stream is_ Hg) at 1.
  unfold remaining in *. destruct is_ as [c g e f]; simpl in *.
  assert (Hlen : (length (drop g c) = strlen name + 1 + length payload)%nat).
  { rewrite Hr, !length_app, c_str_length. simpl. lia. }
  assert (Hgc : (g < length c)%nat) by (rewrite length_drop in Hlen; lia).
  split; [|done].
  unfold InputArchive.unserializeImpl.
  rewrite tellg_good, read_name_full by lia. simpl.
  rewrite decide_False; cycle 1.
  { intros Hc. apply Hc, memcmp_eq.
    rewrite take_name_terminator by done.
    replace (Z.to_nat _) with (strlen name + 1)%nat by lia.
    rewrite take_take, Nat.min_id, Hr. apply take_tag_terminator. }
  assert (Hd : drop (g + (strlen name + 1)) c = payload).
  { rewrite <- drop_drop, Hr. apply drop_tag_terminator. }
  rewrite read_good_short by (rewrite Hd; lia).
  rewrite Hd. simpl. do 2 f_equal. rewrite length_drop in Hlen. lia.
Qed.

Lemma InputArchive_truncated_payload_not_atomic_witness :
  InputArchive.unserializeImpl
    (good_stream (bytes "head" ++ bytes "i" ++ NUL :: bytes "wx") 4)
    (bytes "i" ++ [NUL]) (bytes "....") 4 =
  (Throw (TscppException.Make1 "eof"), bytes "wx..",
   Istream (bytes "head" ++ bytes "i" ++ NUL :: bytes "wx") 8 true true) /\
  (4 < 8)%nat.
Proof.
  apply (InputArchive_truncated_payload_not_atomic
           (good_stream (bytes "head" ++ bytes "i" ++ NUL :: bytes "wx") 4)
           (bytes "i" ++ [NUL]) (bytes "....") (bytes "wx") 4); by_evaluation.
Defined.


(** A record written for [A] does not start with the tag and terminator
    of a type with another tag. *)
Lemma record_other_tag A B a rest :
  c_string (type_name B) ->
  c_str (type_name A) <> c_str (type_name B) ->
  take (strlen (type_name B) + 1) (record A a ++ rest)
    <> c_str (type_name B) ++ [NUL].
Proof.
  intros HB Hne E. apply Hne. unfold record in E.
  rewrite <- !app_assoc in E. simpl in E.
  rewrite <- (c_str_length (type_name B)) in E.
  eapply tag_prefix_inj; eauto using c_str_no_NUL.
Qed.




(** ** Stream API: reading an unknown type *)

Section UnknownStream.
Context {U : Type}.
Implicit Types (tp : TypePool U) (u : U).

Lemma UnknownInputArchive_no_terminator tp u c g :
  (g <= length c)%nat -> NUL ∉ drop g c ->
  UnknownInputArchive.unserialize (good_stream c g) tp u =
    (Throw (TscppException.Make1 "eof"),
     Istream c (length c) true (bool_decide (drop g c = [])), u).
Proof.
  intros Hg Hn. unfold UnknownInputArchive.unserialize.
  rewrite tellg_good, getline_good_eof by done. simpl.
  do 2 f_equal. rewrite length_drop. f_equal. lia.
Qed.

Lemma UnknownInputArchive_unknown_tag tp u c g tag rest :
  drop g c = tag ++ NUL :: rest -> NUL ∉ tag -> tp !! tag = None ->
  UnknownInputArchive.unserialize (good_stream c g) tp u =
    (Throw (TscppException.Make "unknown type" tag), good_stream c g, u).
Proof.
  intros Hr Ht Hl. unfold UnknownInputArchive.unserialize.
  rewrite tellg_good, (getline_good_delim c g [] NUL tag rest) by done.
  simpl. unfold stream_unserializeUnknownImpl. rewrite Hl.
  unfold good_stream. rewrite seekg_no_failbit, Nat2Z.id; [done|].
  assert (g <= length c)%nat; [|lia].
  destruct (decide (g <= length c)%nat); [done|].
  rewrite drop_ge in Hr by lia. by destruct tag.
Qed.

(** A registered tag with its whole payload: the callback receives
    exactly the payload and the cursor is at the next record. *)
Lemma UnknownInputArchive_dispatch tp u c g tag payload rest it :
  drop g c = tag ++ NUL :: payload ++ rest -> NUL ∉ tag ->
  tp !! tag = Some it ->
  Z.of_nat (length payload) = DeserializerImpl.size it ->
  UnknownInputArchive.unserialize (good_stream c g) tp u =
    (Return, good_stream c (g + length tag + 1 + length payload),
     DeserializerImpl.usc it payload u).
Proof.
  intros Hr Ht Hl Hs. unfold UnknownInputArchive.unserialize.
  rewrite tellg_good,
    (getline_good_delim c g [] NUL tag (payload ++ rest)) by done.
  simpl. unfold stream_unserializeUnknownImpl. rewrite Hl.
  assert (Hd : drop (g + length tag + 1) c = payload ++ rest).
  { rewrite <- Nat.add_assoc, <- drop_drop, Hr.
    rewrite (cons_middle NUL), app_assoc. apply drop_app_length'.
    rewrite length_app. simpl. lia. }
  rewrite read_good_full
    by (rewrite ?new_char_length, ?Hd, ?length_app; lia).
  rewrite Hd, (drop_ge (new_char _)), app_nil_r
    by (rewrite new_char_length; lia).
  simpl. rewrite <- Hs, Nat2Z.id, take_app_length. done.
Qed.

(** C4.  Unknown-type stream read on a good stream.  When the source
    ends before a terminator the function throws ["eof"] and the cursor
    stays at the end of the source: it is not moved back to the recorded
    position ([failbit] is set too when no byte at all was left).  When a whole tag is read that is not in the pool the
    function throws ["unknown type"] carrying the tag, and the stream is
    as at the start, the cursor at the recorded position.  No callback
    runs in either case. *)
Theorem UnknownInputArchive_eof_stays_unknown_rewinds
    tp u (is_ is' : istream) (tag rest : list byte) :
  good is_ = true -> (gptr is_ <= length (chars is_))%nat ->
  NUL ∉ remaining is_ ->
  good is' = true -> remaining is' = tag ++ NUL :: rest -> NUL ∉ tag ->
  tp !! tag = None ->
  UnknownInputArchive.unserialize is_ tp u =
    (Throw (TscppException.Make1 "eof"),
     Istream (chars is_) (length (chars is_)) true
       (bool_decide (remaining is_ = [])), u) /\
  UnknownInputArchive.unserialize is' tp u =
    (Throw (TscppException.Make "unknown type" tag), is', u).
Proof.
  intros Hg Hp Hn Hg' Hr Ht Hl. split.
  - rewrite (good_is_good_stream is_ Hg) at 1.
    by rewrite UnknownInputArchive_no_terminator.
  - rewrite (good_is_good_stream is' Hg') at 1 2.
    by apply (UnknownInputArchive_unknown_tag tp u _ _ tag rest).
Qed.
End UnknownStream.

Lemma UnknownInputArchive_eof_stays_unknown_rewinds_witness :
  let is_ := good_stream (bytes "head" ++ bytes "abc") 4 in
  let is' := good_stream (bytes "head" ++ bytes "ab" ++ NUL :: bytes "wxyz") 4 in
  UnknownInputArchive.unserialize is_ ex_pool [] =
    (Throw (TscppException.Make1 "eof"), Istream (chars is_) 7 true false, []) /\
  UnknownInputArchive.unserialize is' ex_pool [] =
    (Throw (TscppException.Make "unknown type" (bytes "ab")), is', []).
Proof.
  apply (UnknownInputArchive_eof_stays_unknown_rewinds ex_pool []
           (good_stream (bytes "head" ++ bytes "abc") 4)
           (good_stream (bytes "head" ++ bytes "ab" ++ NUL :: bytes "wxyz") 4)
           (bytes "ab") (bytes "wxyz")); by_evaluation.
Defined.

(** ** The compile-time type tag *)

Section TypeIdProperties.
Variable char_is_signed : bool.

(** One round of the loop is one round of the specification, on the
    value the byte has as a [char]. *)
Lemma hash_step_spec_mix h c :
  hash_step char_is_signed h c = spec_mix h (char_value char_is_signed c).
Proof. unfold hash_step, spec_mix, uint32. by rewrite !Zplus_mod_idemp_r. Qed.

(** On the ASCII range the value of a [char] does not depend on its
    signedness. *)
Lemma char_value_ascii c :
  Z.of_N (Byte.to_N c) < 128 ->
  char_value char_is_signed c = Z.of_N (Byte.to_N c).
Proof.
  intros Hc. unfold char_value.
  rewrite bool_decide_eq_false_2 by lia. by rewrite andb_false_r.
Qed.

Lemma byte_value_range c : 0 <= byte_value c < 256.
Proof. unfold byte_value. pose proof (Byte.to_N_bounded c). lia. Qed.

(** The value of a [char] is the byte read in two's complement where plain
    [char] is signed, and the byte itself where it is unsigned. *)
Lemma char_value_twos_complement c :
  char_value char_is_signed c =
    if char_is_signed then (byte_value c + 128) mod 256 - 128
    else byte_value c.
Proof.
  pose proof (byte_value_range c) as Hr. unfold char_value.
  fold (byte_value c). destruct char_is_signed; simpl; [|done].
  case_bool_decide.
  - replace (byte_value c + 128) with (byte_value c - 128 + 1 * 256) by lia.
    rewrite Z.mod_add, Z.mod_small by lia. lia.
  - rewrite Z.mod_small by lia. lia.
Qed.

(** Where plain [char] is unsigned, and on ASCII text everywhere, the
    values of the [char]s are the bytes. *)
Lemma char_values_are_bytes T :
  char_is_signed = false \/ Forall (fun c => byte_value c < 128) T ->
  map (char_value char_is_signed) T = map byte_value T.
Proof.
  intros [Hs|Ha].
  - subst. apply map_ext. intros c. unfold char_value. by simpl.
  - induction Ha as [|c T Hc HT IH]; simpl; [done|].
    by rewrite IH, char_value_ascii.
Qed.

Lemma comptime_hash_range a len :
  0 <= comptime_hash char_is_signed a len < 2 ^ 32.
Proof. unfold comptime_hash, uint32. by apply Z.mod_pos_bound. Qed.

(** The loop consumes the first [len] bytes, in order. *)
Lemma comptime_hash_loop_fold a : forall h len,
  0 <= len ->
  comptime_hash_loop char_is_signed h a len =
    fold_left spec_mix (map (char_value char_is_signed) (take (Z.to_nat len) a)) h.
Proof.
  induction a as [|c a IH]; intros h len Hlen; simpl.
  - by rewrite take_nil.
  - case_decide as Hz; [by subst len|].
    rewrite IH by lia.
    replace (Z.to_nat len) with (S (Z.to_nat (len - 1))) by lia.
    simpl. by rewrite hash_step_spec_mix.
Qed.

(** The code computes the one-at-a-time hash of the specification, on the
    values the bytes have as [char]s. *)
Lemma comptime_hash_spec a len :
  0 <= len ->
  comptime_hash char_is_signed a len =
    spec_one_at_a_time (map (char_value char_is_signed) (take (Z.to_nat len) a)).
Proof.
  intros Hlen. unfold comptime_hash, spec_one_at_a_time, uint32.
  rewrite comptime_hash_loop_fold by done.
  by rewrite !Zplus_mod_idemp_r.
Qed.

Lemma comptime_memcmp_true a b len :
  comptime_memcmp a b len = true <->
  (len <= length a)%nat /\ (len <= length b)%nat /\ take len a = take len b.
Proof.
  revert a b. induction len as [|len IH]; intros a b; simpl.
  - split; [intros _; repeat split; (done || lia) | done].
  - destruct a as [|x a], b as [|y b]; simpl;
      try (split; [done | intros (? & ? & ?); lia]).
    case_decide as Hxy.
    + split; [done|]. intros (_ & _ & E). by injection E.
    + subst y. rewrite IH. split.
      * intros (? & ? & ->). repeat split; lia.
      * intros (? & ? & E). injection E as E. repeat split; (done || lia).
Qed.
(** The suffix starts with a byte that does not occur in the prefix, so
    a text that starts with the one and ends with the other has room for
    both. *)
Lemma prefix_suffix_disjoint PF :
  PRETTY_FUNCTION_PRE `prefix_of` PF -> PRETTY_FUNCTION_POST `suffix_of` PF ->
  exists T, PF = PRETTY_FUNCTION_PRE ++ T ++ PRETTY_FUNCTION_POST.
Proof.
  intros [k1 E1] [k2 E2].
  destruct (decide (length PRETTY_FUNCTION_PRE <= length k2)%nat) as [Hle|Hgt].
  - exists (drop (length PRETTY_FUNCTION_PRE) k2). rewrite E1. f_equal.
    apply (f_equal (drop (length PRETTY_FUNCTION_PRE))) in E1.
    rewrite drop_app_length in E1. rewrite <- E1, E2.
    by rewrite drop_app_le.
  - exfalso.
    assert (H1 : PF !! length k2 = Some ";"%byte).
    { rewrite E2. by rewrite lookup_app_r, Nat.sub_diag by lia. }
    rewrite E1, lookup_app_l in H1 by lia.
    apply list_elem_of_lookup_2 in H1. revert H1.
    apply (bool_decide_unpack _). by vm_compute.
Qed.

Lemma type_id_accepts T :
  type_id char_is_signed (PRETTY_FUNCTION_PRE ++ T ++ PRETTY_FUNCTION_POST)
    = Some (spec_one_at_a_time (map (char_value char_is_signed) T)).
Proof.
  unfold type_id.
  set (PRE := PRETTY_FUNCTION_PRE). set (POST := PRETTY_FUNCTION_POST).
  assert (HPOST : (0 < length POST)%nat) by (vm_compute; lia).
  assert (HPRE : (0 < length PRE)%nat) by (vm_compute; lia).
  rewrite !length_app, !Nat2Z.id.
  rewrite bool_decide_eq_true_2 by lia.
  rewrite (proj2 (comptime_memcmp_true _ _ _)); cycle 1.
  { rewrite length_app, take_app_length, firstn_all. repeat split; (done || lia). }
  rewrite bool_decide_eq_true_2 by lia.
  replace (Z.to_nat _) with (length (PRE ++ T)) by (rewrite length_app; lia).
  rewrite app_assoc, drop_app_length.
  rewrite (proj2 (comptime_memcmp_true _ _ _)) by done.
  rewrite <- app_assoc, drop_app_length. simpl. f_equal.
  rewrite comptime_hash_spec by lia.
  replace (Z.to_nat _) with (length T) by lia.
  by rewrite take_app_length.
Qed.

Lemma type_id_rejects PF :
  ~ (PRETTY_FUNCTION_PRE `prefix_of` PF /\ PRETTY_FUNCTION_POST `suffix_of` PF) ->
  type_id char_is_signed PF = None.
Proof.
  intros Hn. unfold type_id. rewrite !Nat2Z.id.
  destruct (bool_decide _ && comptime_memcmp PF _ _) eqn:E1; [|done].
  destruct (bool_decide _ && comptime_memcmp (drop _ PF) _ _) eqn:E2; [|done].
  exfalso. apply Hn.
  apply andb_prop in E1 as [_ E1]. apply andb_prop in E2 as [L2 E2].
  apply bool_decide_eq_true_1 in L2.
  apply comptime_memcmp_true in E1 as (_ & _ & E1).
  apply comptime_memcmp_true in E2 as (_ & L2' & E2).
  rewrite firstn_all in E1, E2. split.
  - exists (drop (length PRETTY_FUNCTION_PRE) PF).
    rewrite <- (take_drop (length PRETTY_FUNCTION_PRE) PF) at 1.
    by rewrite E1.
  - rewrite take_ge in E2 by (rewrite length_drop; lia).
    set (k := Z.to_nat _) in E2. exists (take k PF).
    rewrite <- (take_drop k PF) at 1. by rewrite E2.
Qed.

(** Whenever the assertions hold, the text is the prefix, a description
    and the suffix, and the tag is the hash of the description. *)
Lemma type_id_Some_inv PF h :
  type_id char_is_signed PF = Some h ->
  exists T, PF = PRETTY_FUNCTION_PRE ++ T ++ PRETTY_FUNCTION_POST /\
            h = spec_one_at_a_time (map (char_value char_is_signed) T).
Proof.
  intros Hh.
  destruct (decide (PRETTY_FUNCTION_PRE `prefix_of` PF /\
                    PRETTY_FUNCTION_POST `suffix_of` PF)) as [[Hp Hs]|Hn].
  - destruct (prefix_suffix_disjoint PF Hp Hs) as [T ->].
    exists T. split; [done|]. rewrite type_id_accepts in Hh. congruence.
  - rewrite type_id_rejects in Hh by done. discriminate.
Qed.

(** C8, as the code has it.  The tag [type_id] gives for a type is the
    one-at-a-time hash
    (seed 0, per byte [h += byte; h += h<<10; h ^= h>>6], finalized with
    [h += h<<3; h ^= h>>11; h += h<<15], on 32 bits) of the text of
    [__PRETTY_FUNCTION__] without the expected prefix and suffix: of the
    bytes of the description [T] when it is ASCII text or plain [char] is
    unsigned, and for every description [T'] of the values its bytes have
    as plain [char]s (where [char] is signed, a byte from 0x80 on counts as
    the byte minus 256).  When the text does not start with the prefix
    literal or does not end with the suffix literal, a [static_assert]
    fails and there is no tag. *)
Theorem type_id_hashes_stripped_description (T T' PF : list byte) :
  char_is_signed = false \/ Forall (fun c => byte_value c < 128) T ->
  ~ (PRETTY_FUNCTION_PRE `prefix_of` PF /\ PRETTY_FUNCTION_POST `suffix_of` PF) ->
  comptime_hash char_is_signed T (Z.of_nat (length T))
    = spec_one_at_a_time (map byte_value T) /\
  type_id char_is_signed (PRETTY_FUNCTION_PRE ++ T ++ PRETTY_FUNCTION_POST)
    = Some (spec_one_at_a_time (map byte_value T)) /\
  type_id char_is_signed (PRETTY_FUNCTION_PRE ++ T' ++ PRETTY_FUNCTION_POST)
    = Some (spec_one_at_a_time
              (map (fun c => if char_is_signed
                             then (byte_value c + 128) mod 256 - 128
                             else byte_value c) T')) /\
  type_id char_is_signed PF = None.
Proof.
  intros Hc Hn. repeat split.
  - rewrite comptime_hash_spec by lia.
    by rewrite Nat2Z.id, firstn_all, char_values_are_bytes.
  - by rewrite type_id_accepts, char_values_are_bytes.
  - rewrite type_id_accepts. do 2 f_equal.
    apply map_ext. intros c. apply char_value_twos_complement.
  - by apply type_id_rejects.
Qed.
End TypeIdProperties.

(** The byte 0xE9 alone: its hash as a byte, which is the tag where plain
    [char] is unsigned, and the tag where plain [char] is signed. *)
Lemma comptime_hash_high_byte :
  spec_one_at_a_time [byte_value xe9] = 2102098517 /\
  comptime_hash false [xe9] 1 = 2102098517 /\
  comptime_hash true [xe9] 1 = 1083721983.
Proof. repeat split. Qed.

Lemma type_id_hashes_stripped_description_witness :
  comptime_hash true (bytes "int") 3 = 556453026 /\
  type_id true
    (bytes "constexpr uint32_t tscpp::type_id() [with T = int; uint32_t = unsigned int]")
    = Some 556453026 /\
  type_id true (PRETTY_FUNCTION_PRE ++ [xe9] ++ PRETTY_FUNCTION_POST)
    = Some 1083721983 /\
  type_id true
    (bytes "constexpr uint32_t tscpp::type_id() [T = int]") = None.
Proof.
  apply (type_id_hashes_stripped_description true (bytes "int") [xe9]
           (bytes "constexpr uint32_t tscpp::type_id() [T = int]"));
    by_evaluation.
Defined.

(** C8 as stated, for every description, fails for a byte from 0x80 on
    where plain [char] is signed: for the description made of the byte
    0xE9 the tag is 1083721983, and the one-at-a-time hash of that byte is
    2102098517. *)
Lemma type_id_hashes_stripped_description_counterexample :
  ~ (forall (char_is_signed : bool) (T : list byte),
       type_id char_is_signed
           (PRETTY_FUNCTION_PRE ++ T ++ PRETTY_FUNCTION_POST)
         = Some (spec_one_at_a_time (map byte_value T))).
Proof.
  intros H. specialize (H true [xe9]).
  vm_compute in H. discriminate H.
Qed.

(** * Further properties of the code *)

(** ** Buffer API: dispatch through the pool *)

Section PoolDispatch.
Context {U : Type}.
Implicit Types (tp : TypePool U) (u : U) (callback : list byte -> U -> U).

(** The closure [registerType] stores hands the callback the first
    [sizeof(T)] bytes of the memory it is given. *)
Lemma registerType_lookup tp T callback :
  registerType T callback tp !! c_str (type_name T) =
    Some (DeserializerImpl.Make (Z.of_nat (sizeof T))
            (fun buffer =>
               callback (memcpy (replicate (sizeof T) NUL) buffer
                                (Z.of_nat (sizeof T))))).
Proof. unfold registerType. by rewrite lookup_insert_eq. Qed.

Lemma registered_closure_payload T v rest :
  has_type T v ->
  memcpy (replicate (sizeof T) NUL) (v ++ rest) (Z.of_nat (sizeof T)) = v.
Proof.
  unfold has_type. intros Hv.
  rewrite memcpy_eq by (rewrite ?length_app, ?length_replicate; lia).
  rewrite Nat2Z.id, <- Hv, take_app_length.
  rewrite drop_ge, app_nil_r by (rewrite length_replicate; lia). done.
Qed.

(** [serialize] followed by [unserializeUnknown] through a pool in which
    the type is registered: the callback runs once, on the bytes of the
    value, and the count returned is the record length. *)
Theorem unserializeUnknown_registered_roundtrip
    tp (T : ctype) callback (v buffer : list byte) (bufSize : Z) u :
  c_string (type_name T) -> has_type T v ->
  record_length T <= bufSize <= Z.of_nat (length buffer) ->
  unserializeUnknown (registerType T callback tp)
      (snd (serialize T buffer bufSize v)) bufSize u
    = (record_length T, callback v u).
Proof.
  intros Hn Hv Hb. rewrite serialize_fits by done. simpl.
  unfold record. rewrite <- !app_assoc. simpl.
  pose proof (c_str_no_NUL (type_name T)) as Ht.
  unfold record_length in *.
  erewrite unserializeUnknown_found;
    [ | done | lia | apply registerType_lookup | simpl; lia ].
  simpl. rewrite registered_closure_payload by done. f_equal. lia.
Qed.

(** No terminator among the first [bufSize] bytes: [BufferTooSmall], and
    no callback runs. *)
Theorem unserializeUnknown_no_terminator
    tp (buffer : list byte) (bufSize : Z) u :
  bufSize <= Z.of_nat (length buffer) ->
  NUL ∉ take (Z.to_nat bufSize) buffer ->
  unserializeUnknown tp buffer bufSize u = (BufferTooSmall, u).
Proof.
  intros Hb Hn. unfold unserializeUnknown.
  rewrite decide_True; [done|].
  destruct (decide (bufSize <= 0)) as [Hneg|Hpos].
  { pose proof (strnlen_nonneg buffer bufSize). lia. }
  rewrite strnlen_min by lia.
  assert (E := count_until_take NUL (Z.to_nat bufSize) buffer).
  rewrite (count_until_all NUL _ Hn), length_take_le in E by lia.
  fold (strlen buffer) in E. lia.
Qed.

(** A record of a registered type cut short inside its payload: the value
    returned is the length of the tag, a count that is not negative, and
    no callback runs. *)
Theorem unserializeUnknown_truncated_record
    tp (T : ctype) callback (v rest : list byte) (bufSize : Z) u :
  Z.of_nat (length (c_str (type_name T))) < bufSize < record_length T ->
  unserializeUnknown (registerType T callback tp) (record T v ++ rest) bufSize u
    = (Z.of_nat (length (c_str (type_name T))), u).
Proof.
  intros Hb. unfold record. rewrite <- !app_assoc. simpl.
  pose proof (c_str_no_NUL (type_name T)) as Ht.
  unfold record_length in *.
  erewrite unserializeUnknown_truncated;
    [ | done | lia | apply registerType_lookup | simpl; lia ].
  f_equal. unfold BufferTooSmall. lia.
Qed.

(** Registering a type replaces an earlier registration of the same name,
    and does not change what happens to a buffer that starts with another
    name. *)
Theorem registerType_last_wins_others_kept
    tp (T : ctype) callback1 callback2 (buffer : list byte) (bufSize : Z) u :
  c_str buffer <> c_str (type_name T) ->
  registerType T callback2 (registerType T callback1 tp)
    = registerType T callback2 tp /\
  unserializeUnknown (registerType T callback2 tp) buffer bufSize u
    = unserializeUnknown tp buffer bufSize u.
Proof.
  intros Hne. split.
  - unfold registerType. by rewrite insert_insert_eq.
  - unfold unserializeUnknown. case_decide; [done|].
    unfold unserializeUnknownImpl, registerType.
    by rewrite lookup_insert_ne.
Qed.
End PoolDispatch.

Lemma unserializeUnknown_registered_roundtrip_witness :
  unserializeUnknown (registerType ex_int (fun t u => t :: u) ∅)
      (snd (serialize ex_int (bytes "0123456789") 10 (bytes "wxyz"))) 10 []
    = (6, [bytes "wxyz"]).
Proof.
  apply (unserializeUnknown_registered_roundtrip ∅ ex_int (fun t u => t :: u)
           (bytes "wxyz") (bytes "0123456789") 10 []); by_evaluation.
Defined.

Lemma unserializeUnknown_no_terminator_witness :
  unserializeUnknown ex_pool (bytes "ab" ++ NUL :: bytes "wxyz") 2 []
    = (BufferTooSmall, []).
Proof.
  apply (unserializeUnknown_no_terminator ex_pool
           (bytes "ab" ++ NUL :: bytes "wxyz") 2 []); by_evaluation.
Defined.

Lemma unserializeUnknown_truncated_record_witness :
  unserializeUnknown (registerType ex_int (fun t u => t :: u) ∅)
      (record ex_int (bytes "wxyz") ++ bytes "!") 5 []
    = (1, []).
Proof.
  apply (unserializeUnknown_truncated_record ∅ ex_int (fun t u => t :: u)
           (bytes "wxyz") (bytes "!") 5 []); by_evaluation.
Defined.

Lemma registerType_last_wins_others_kept_witness :
  let tp := registerType ex_char (fun t u => t :: u) ∅ in
  registerType ex_int (fun t u => u) (registerType ex_int (fun t u => t :: u) tp)
    = registerType ex_int (fun t u => u) tp /\
  unserializeUnknown (registerType ex_int (fun t u => u) tp)
      (record ex_char (bytes "x")) 3 []
    = unserializeUnknown tp (record ex_char (bytes "x")) 3 [].
Proof.
  apply (registerType_last_wins_others_kept
           (registerType ex_char (fun t u => t :: u) ∅) ex_int
           (fun t u => t :: u) (fun t u => u)
           (record ex_char (bytes "x")) 3 []); by_evaluation.
Defined.

(** ** Stream API: reading back what was written *)

(** A good stream positioned at a record of [T]: the read returns, the
    destination holds the value and the cursor is behind the record. *)
Lemma InputArchive_get_record c g T v t rest :
  c_string (type_name T) -> has_type T v -> has_type T t ->
  drop g c = record T v ++ rest ->
  InputArchive.get T (good_stream c g) t =
    (Return, v, good_stream c (g + length (record T v))).
Proof.
  intros Hn Hv Ht Hr. unfold has_type in *.
  unfold record in Hr. rewrite <- !app_assoc in Hr. simpl in Hr.
  assert (Hlen : (length (drop g c)
                  = strlen (type_name T) + 1 + sizeof T + length rest)%nat).
  { rewrite Hr, length_app, c_str_length. simpl. rewrite length_app. lia. }
  unfold InputArchive.get, InputArchive.unserializeImpl.
  rewrite tellg_good, read_name_full by lia. simpl.
  rewrite decide_False; cycle 1.
  { intros Hc. apply Hc, memcmp_eq.
    rewrite take_name_terminator by done.
    replace (Z.to_nat _) with (strlen (type_name T) + 1)%nat by lia.
    rewrite take_take, Nat.min_id, Hr. apply take_tag_terminator. }
  assert (Hd : drop (g + (strlen (type_name T) + 1)) c = v ++ rest).
  { rewrite <- drop_drop, Hr. apply drop_tag_terminator. }
  rewrite read_good_full by (rewrite ?Hd, ?length_app; lia).
  rewrite Hd, Nat2Z.id, <- Hv, take_app_length.
  rewrite Hv, <- Ht, drop_all, app_nil_r. simpl.
  do 2 f_equal. unfold record. rewrite !length_app, c_str_length. simpl. lia.
Qed.

(** [oa << v] followed by [ia >> t] on the bytes written: [t] becomes [v],
    nothing is thrown and the stream stays good, its cursor behind the
    record, whatever precedes and follows the record in the source. *)
Theorem stream_put_get_roundtrip
    (T : ctype) (v t : list byte) (os : ostream) (rest : list byte) :
  c_string (type_name T) -> has_type T v -> has_type T t ->
  InputArchive.get T
      (good_stream (OutputArchive.put T os v ++ rest) (length os)) t
    = (Return, v,
       good_stream (OutputArchive.put T os v ++ rest)
                   (length os + length (record T v))).
Proof.
  intros Hn Hv Ht. apply (InputArchive_get_record _ _ T v t rest); try done.
  rewrite OutputArchive_put_record by done.
  by rewrite <- !app_assoc, drop_app_length.
Qed.

Lemma stream_put_get_roundtrip_witness :
  InputArchive.get ex_int
      (good_stream (OutputArchive.put ex_int (bytes "head") (bytes "wxyz")
                    ++ bytes "tail") 4) (bytes "....")
    = (Return, bytes "wxyz",
       good_stream (OutputArchive.put ex_int (bytes "head") (bytes "wxyz")
                    ++ bytes "tail") 10).
Proof.
  apply (stream_put_get_roundtrip ex_int (bytes "wxyz") (bytes "....")
           (bytes "head") (bytes "tail")); by_evaluation.
Defined.

(** Two values written one after the other.  Reading the second type first
    throws ["wrong type"] with the tag of the first and leaves the stream as
    it was; from there the two reads in the order of the writes return the
    two values. *)
Theorem stream_reads_back_in_order
    (A B : ctype) (a b ta tb : list byte) (os : ostream) :
  c_string (type_name A) -> c_string (type_name B) ->
  c_str (type_name A) <> c_str (type_name B) ->
  has_type A a -> has_type A ta -> has_type B b -> has_type B tb ->
  let c := OutputArchive.put B (OutputArchive.put A os a) b in
  let is0 := good_stream c (length os) in
  let is1 := good_stream c (length os + length (record A a)) in
  InputArchive.get B is0 tb =
    (Throw (TscppException.Make "wrong type" (c_str (type_name A))), tb, is0) /\
  InputArchive.get A is0 ta = (Return, a, is1) /\
  InputArchive.get B is1 tb = (Return, b, good_stream c (length c)).
Proof.
  intros HA HB Hne Ha Hta Hb Htb c is0 is1.
  assert (Hc : c = os ++ record A a ++ record B b).
  { unfold c. rewrite !OutputArchive_put_record by done.
    by rewrite <- app_assoc. }
  assert (H0 : drop (length os) c = record A a ++ record B b).
  { by rewrite Hc, drop_app_length. }
  assert (H1 : drop (length os + length (record A a)) c = record B b ++ []).
  { rewrite <- drop_drop, H0, drop_app_length. by rewrite app_nil_r. }
  repeat split.
  - unfold InputArchive.get, is0. rewrite InputArchive_wrong_tag; try done.
    + rewrite H0. unfold record. rewrite <- !app_assoc. simpl.
      by rewrite c_str_record by apply c_str_no_NUL.
    + rewrite H0, length_app. unfold record at 2.
      rewrite !length_app, c_str_length. simpl. lia.
    + rewrite H0. by apply record_other_tag.
  - by apply (InputArchive_get_record _ _ A a ta (record B b)).
  - unfold is1.
    rewrite (InputArchive_get_record _ _ B b tb []) by done.
    do 2 f_equal. rewrite Hc, !length_app. lia.
Qed.

Lemma stream_reads_back_in_order_witness :
  let c := OutputArchive.put ex_int
             (OutputArchive.put ex_char (bytes "head") (bytes "x")) (bytes "wxyz") in
  InputArchive.get ex_int (good_stream c 4) (bytes "....") =
    (Throw (TscppException.Make "wrong type" (bytes "c")), bytes "....",
     good_stream c 4) /\
  InputArchive.get ex_char (good_stream c 4) (bytes ".") =
    (Return, bytes "x", good_stream c 7) /\
  InputArchive.get ex_int (good_stream c 7) (bytes "....") =
    (Return, bytes "wxyz", good_stream c 13).
Proof.
  apply (stream_reads_back_in_order ex_char ex_int (bytes "x") (bytes "wxyz")
           (bytes ".") (bytes "....") (bytes "head")); by_evaluation.
Defined.

(** The two transports share one format: what [serialize] puts in a buffer
    is read by the stream archive, and what the stream archive writes is
    read by [unserialize]. *)
Theorem buffer_and_stream_interchangeable
    (T : ctype) (v t buffer : list byte) (bufSize : Z) :
  c_string (type_name T) -> has_type T v -> has_type T t ->
  record_length T <= bufSize <= Z.of_nat (length buffer) ->
  InputArchive.get T (good_stream (snd (serialize T buffer bufSize v)) 0) t
    = (Return, v,
       good_stream (snd (serialize T buffer bufSize v)) (length (record T v))) /\
  unserialize T t (OutputArchive.put T [] v) (record_length T)
    = (record_length T, v).
Proof.
  intros Hn Hv Ht Hb. split.
  - rewrite serialize_fits by done. simpl.
    by rewrite (InputArchive_get_record _ 0 T v t
                  (drop (Z.to_nat (record_length T)) buffer)).
  - rewrite OutputArchive_put_record by done. simpl.
    rewrite <- (app_nil_r (record T v)).
    apply unserialize_record; (done || lia).
Qed.

Lemma buffer_and_stream_interchangeable_witness :
  let buf := snd (serialize ex_int (bytes "0123456789") 10 (bytes "wxyz")) in
  InputArchive.get ex_int (good_stream buf 0) (bytes "....")
    = (Return, bytes "wxyz", good_stream buf 6) /\
  unserialize ex_int (bytes "....") (OutputArchive.put ex_int [] (bytes "wxyz")) 6
    = (6, bytes "wxyz").
Proof.
  apply (buffer_and_stream_interchangeable ex_int (bytes "wxyz") (bytes "....")
           (bytes "0123456789") 10); by_evaluation.
Defined.

(** ** Stream API: unknown types through the pool *)

Section StreamDispatch.
Context {U : Type}.
Implicit Types (tp : TypePool U) (u : U) (callback : list byte -> U -> U).

(** A value written with [oa << v] and read with
    [UnknownInputArchive::unserialize] through a pool in which its type is
    registered: the callback runs once on the bytes of the value, and the
    cursor is behind the record. *)
Theorem UnknownInputArchive_registered_roundtrip
    tp (T : ctype) callback (v : list byte) (os : ostream) (rest : list byte) u :
  c_string (type_name T) -> has_type T v ->
  UnknownInputArchive.unserialize
      (good_stream (OutputArchive.put T os v ++ rest) (length os))
      (registerType T callback tp) u
    = (Return,
       good_stream (OutputArchive.put T os v ++ rest)
                   (length os + length (record T v)),
       callback v u).
Proof.
  intros Hn Hv. rewrite OutputArchive_put_record by done.
  pose proof (c_str_no_NUL (type_name T)) as Ht.
  assert (Hd : drop (length os) ((os ++ record T v) ++ rest)
               = c_str (type_name T) ++ NUL :: v ++ rest).
  { rewrite <- !app_assoc, drop_app_length. unfold record.
    by rewrite <- !app_assoc. }
  assert (Hs : Z.of_nat (length v) = Z.of_nat (sizeof T))
    by (unfold has_type in Hv; lia).
  rewrite (UnknownInputArchive_dispatch _ u _ _ _ v rest _ Hd Ht
             (registerType_lookup tp T callback) Hs).
  simpl. rewrite <- (app_nil_r v) at 3.
  rewrite registered_closure_payload by done.
  do 2 f_equal. unfold record. rewrite !length_app. simpl. f_equal. lia.
Qed.

(** The record of a registered type whose payload is cut short by the end
    of the source: ["eof"] is thrown, no callback runs, and the cursor is
    left at the end of the source, not at the start of the record. *)
Theorem UnknownInputArchive_truncated_payload
    tp (T : ctype) callback (payload : list byte) (is_ : istream) u :
  good is_ = true ->
  remaining is_ = c_str (type_name T) ++ NUL :: payload ->
  (length payload < sizeof T)%nat ->
  UnknownInputArchive.unserialize is_ (registerType T callback tp) u
    = (Throw (TscppException.Make1 "eof"),
       Istream (chars is_) (length (chars is_)) true true, u) /\
  (gptr is_ < length (chars is_))%nat.
Proof.
  intros Hg Hr Hp. rewrite (good_is_good_stream is_ Hg) at 1.
  unfold remaining in *. destruct is_ as [c g e f]; simpl in *.
  pose proof (c_str_no_NUL (type_name T)) as Ht.
  assert (Hlen : (length (drop g c)
                  = length (c_str (type_name T)) + 1 + length payload)%nat).
  { rewrite Hr, length_app. simpl. lia. }
  assert (Hgc : (g < length c)%nat) by (rewrite length_drop in Hlen; lia).
  split; [|done].
  unfold UnknownInputArchive.unserialize.
  rewrite tellg_good,
    (getline_good_delim c g [] NUL (c_str (type_name T)) payload) by done.
  simpl. unfold stream_unserializeUnknownImpl.
  rewrite registerType_lookup. simpl.
  assert (Hd : drop (g + length (c_str (type_name T)) + 1) c = payload).
  { rewrite <- Nat.add_assoc, <- drop_drop, Hr.
    rewrite (cons_middle NUL), app_assoc. apply drop_app_length'.
    rewrite length_app. simpl. lia. }
  rewrite read_good_short by (rewrite ?new_char_length, Hd; lia).
  rewrite Hd. simpl. do 2 f_equal. f_equal. rewrite length_drop in Hlen. lia.
Qed.

(** A stream on which [eofbit] is set, as an earlier failed read leaves it:
    both readers throw ["eof"] again, the destination and the cursor do not
    change and no callback runs. *)
Theorem reads_after_eof_fail_again
    tp (is_ : istream) (name data : list byte) (size : Z) u :
  eof is_ = true ->
  InputArchive.unserializeImpl is_ name data size
    = (Throw (TscppException.Make1 "eof"), data, set_failbit is_) /\
  UnknownInputArchive.unserialize is_ tp u
    = (Throw (TscppException.Make1 "eof"), set_failbit is_, u).
Proof.
  intros He. destruct is_ as [c g e f]. simpl in He. subst e. split.
  - unfold InputArchive.unserializeImpl, tellg, read, sentry, good. simpl. done.
  - unfold UnknownInputArchive.unserialize, tellg, getline, sentry, good.
    simpl. done.
Qed.
End StreamDispatch.

Lemma UnknownInputArchive_registered_roundtrip_witness :
  UnknownInputArchive.unserialize
      (good_stream (OutputArchive.put ex_int (bytes "head") (bytes "wxyz")
                    ++ bytes "tail") 4)
      (registerType ex_int (fun t u => t :: u) ∅) []
    = (Return,
       good_stream (OutputArchive.put ex_int (bytes "head") (bytes "wxyz")
                    ++ bytes "tail") 10,
       [bytes "wxyz"]).
Proof.
  apply (UnknownInputArchive_registered_roundtrip ∅ ex_int (fun t u => t :: u)
           (bytes "wxyz") (bytes "head") (bytes "tail") []); by_evaluation.
Defined.

Lemma UnknownInputArchive_truncated_payload_witness :
  let is_ := good_stream (bytes "head" ++ bytes "i" ++ NUL :: bytes "wx") 4 in
  UnknownInputArchive.unserialize is_ (registerType ex_int (fun t u => t :: u) ∅) []
    = (Throw (TscppException.Make1 "eof"), Istream (chars is_) 8 true true, []) /\
  (4 < 8)%nat.
Proof.
  apply (UnknownInputArchive_truncated_payload ∅ ex_int (fun t u => t :: u)
           (bytes "wx")
           (good_stream (bytes "head" ++ bytes "i" ++ NUL :: bytes "wx") 4) []);
    by_evaluation.
Defined.

Lemma reads_after_eof_fail_again_witness :
  let is_ := Istream (bytes "i" ++ NUL :: bytes "wx") 4 true true in
  InputArchive.unserializeImpl is_ (bytes "i" ++ [NUL]) (bytes "wx..") 4
    = (Throw (TscppException.Make1 "eof"), bytes "wx..", is_) /\
  UnknownInputArchive.unserialize is_ ex_pool []
    = (Throw (TscppException.Make1 "eof"), is_, []).
Proof.
  apply (reads_after_eof_fail_again ex_pool
           (Istream (bytes "i" ++ NUL :: bytes "wx") 4 true true)
           (bytes "i" ++ [NUL]) (bytes "wx..") 4 []); by_evaluation.
Defined.

(** ** The closures of [TypePoolStream] *)

(** The closure [TypePoolStream::registerType] stores under the name of
    [T].  On a good stream with at least [sizeof(T)] bytes left it hands
    exactly these bytes to the callback and moves the cursor behind them;
    with fewer bytes left it throws ["eof"], the callback does not run and
    the cursor is at the end of the source. *)
Theorem TypePoolStream_registered_closure
    {U : Type} (types : TypePoolStream U) (T : ctype)
    (callback : list byte -> U -> U) (u : U)
    (c : list byte) (g : nat) (payload rest : list byte)
    (c' : list byte) (g' : nat) :
  has_type T payload -> drop g c = payload ++ rest ->
  (g' <= length c')%nat -> (length (drop g' c') < sizeof T)%nat ->
  exists f,
    TypePoolStream.registerType T callback types !! c_str (type_name T) = Some f /\
    f (good_stream c g) u
      = (Return, good_stream c (g + sizeof T), callback payload u) /\
    f (good_stream c' g') u
      = (Throw (TscppException.Make1 "eof"),
         Istream c' (length c') true true, u).
Proof.
  intros Hp Hr Hg' Hshort. unfold has_type in Hp.
  eexists. split; [apply lookup_insert_eq|]. split.
  - rewrite read_good_full
      by (rewrite ?Hr, ?length_app, ?length_replicate; lia).
    rewrite Hr, Nat2Z.id, <- Hp, take_app_length.
    rewrite drop_ge, app_nil_r by (rewrite length_replicate; lia). done.
  - rewrite read_good_short by (rewrite ?length_replicate; lia).
    simpl. do 2 f_equal. f_equal. rewrite length_drop. lia.
Qed.

Lemma TypePoolStream_registered_closure_witness :
  exists f,
    TypePoolStream.registerType ex_int (fun t u => t :: u) ∅
      !! c_str (type_name ex_int) = Some f /\
    f (good_stream (bytes "head" ++ bytes "wxyz" ++ bytes "tail") 4) []
      = (Return, good_stream (bytes "head" ++ bytes "wxyz" ++ bytes "tail") 8,
         [bytes "wxyz"]) /\
    f (good_stream (bytes "head" ++ bytes "wx") 4) []
      = (Throw (TscppException.Make1 "eof"),
         Istream (bytes "head" ++ bytes "wx") 6 true true, []).
Proof.
  apply (TypePoolStream_registered_closure ∅ ex_int (fun t u => t :: u) []
           (bytes "head" ++ bytes "wxyz" ++ bytes "tail") 4
           (bytes "wxyz") (bytes "tail")
           (bytes "head" ++ bytes "wx") 4); by_evaluation.
Defined.

(** ** Buffer API: chaining records and looking at the tag *)

(** The count [serialize] returns is the offset of the next record: two
    values written back to back are read back in the same way, each read
    returning the length of its record. *)
Theorem serialize_chain_roundtrip
    (A B : ctype) (a b ta tb buffer : list byte) (bufSize : Z) :
  c_string (type_name A) -> c_string (type_name B) ->
  has_type A a -> has_type A ta -> has_type B b -> has_type B tb ->
  record_length A + record_length B <= bufSize <= Z.of_nat (length buffer) ->
  let r1 := fst (serialize A buffer bufSize a) in
  let buf1 := snd (serialize A buffer bufSize a) in
  let buf2 := at_offset buf1 r1
                (fun p => snd (serialize B p (bufSize - r1) b)) in
  r1 = record_length A /\
  fst (serialize B (drop (Z.to_nat r1) buf1) (bufSize - r1) b) = record_length B /\
  unserialize A ta buf2 bufSize = (record_length A, a) /\
  unserialize B tb (drop (Z.to_nat r1) buf2) (bufSize - r1) = (record_length B, b).
Proof.
  intros HA HB Ha Hta Hb Htb Hsz r1 buf1 buf2.
  assert (HLA : 0 < record_length A) by (unfold record_length; lia).
  assert (HLB : 0 < record_length B) by (unfold record_length; lia).
  assert (E1 : serialize A buffer bufSize a =
               (record_length A,
                record A a ++ drop (Z.to_nat (record_length A)) buffer))
    by (apply serialize_fits; (done || lia)).
  assert (HrA : length (record A a) = Z.to_nat (record_length A))
    by (rewrite <- (record_has_length A a Ha); lia).
  unfold buf2, buf1, r1, at_offset. rewrite !E1. simpl.
  rewrite take_app_length', drop_app_length' by done.
  rewrite serialize_fits
    by (done || rewrite ?length_drop; lia).
  simpl. repeat split.
  - apply unserialize_record; (done || lia).
  - rewrite drop_app_length' by done.
    apply unserialize_record; (done || lia).
Qed.

Lemma serialize_chain_roundtrip_witness :
  let r1 := fst (serialize ex_char (bytes "0123456789") 10 (bytes "x")) in
  let buf1 := snd (serialize ex_char (bytes "0123456789") 10 (bytes "x")) in
  let buf2 := at_offset buf1 r1
                (fun p => snd (serialize ex_int p (10 - r1) (bytes "wxyz"))) in
  r1 = 3 /\
  fst (serialize ex_int (drop (Z.to_nat r1) buf1) (10 - r1) (bytes "wxyz")) = 6 /\
  unserialize ex_char (bytes ".") buf2 10 = (3, bytes "x") /\
  unserialize ex_int (bytes "....") (drop (Z.to_nat r1) buf2) (10 - r1)
    = (6, bytes "wxyz").
Proof.
  apply (serialize_chain_roundtrip ex_char ex_int (bytes "x") (bytes "wxyz")
           (bytes ".") (bytes "....") (bytes "0123456789") 10); by_evaluation.
Defined.

(** After [serialize], [peekTypeName] on the buffer gives the name of the
    type written; so when [unserialize] for a type with another name
    returns [TypeMismatch], [peekTypeName] names the type that is there. *)
Theorem peekTypeName_after_serialize
    (A B : ctype) (a tb buffer : list byte) (bufSize : Z) :
  c_string (type_name A) -> c_string (type_name B) ->
  c_str (type_name A) <> c_str (type_name B) ->
  has_type A a ->
  record_length A <= bufSize <= Z.of_nat (length buffer) ->
  record_length B <= bufSize ->
  unserialize B tb (snd (serialize A buffer bufSize a)) bufSize
    = (TypeMismatch, tb) /\
  peekTypeName (snd (serialize A buffer bufSize a)) bufSize
    = c_str (type_name A).
Proof.
  intros HA HB Hne Ha Hsz HszB.
  rewrite serialize_fits by done. simpl.
  unfold record. rewrite <- !app_assoc. simpl.
  pose proof (c_str_no_NUL (type_name A)) as Ht. split.
  - rewrite record_length_eq in HszB.
    apply unserializeImpl_mismatch;
      (done || lia || apply record_length_int).
  - unfold peekTypeName, record_length in *.
    rewrite strnlen_bounded_tag by (done || lia).
    rewrite decide_False by lia. by apply c_str_record.
Qed.

Lemma peekTypeName_after_serialize_witness :
  unserialize ex_int (bytes "....")
      (snd (serialize ex_char (bytes "0123456789") 10 (bytes "x"))) 10
    = (TypeMismatch, bytes "....") /\
  peekTypeName (snd (serialize ex_char (bytes "0123456789") 10 (bytes "x"))) 10
    = bytes "c".
Proof.
  apply (peekTypeName_after_serialize ex_char ex_int (bytes "x") (bytes "....")
           (bytes "0123456789") 10); by_evaluation.
Defined.

Lemma peekTypeName_within_bounds_witness :
  peekTypeName (take (Z.to_nat 4) (bytes "ab" ++ NUL :: bytes "wxyz") ++ bytes "!?") 4
    = peekTypeName (bytes "ab" ++ NUL :: bytes "wxyz") 4.
Proof.
  apply (peekTypeName_within_bounds (bytes "ab" ++ NUL :: bytes "wxyz") 4
           (bytes "!?")); by_evaluation.
Defined.

(** ** The compile-time helpers *)

(** [comptime_memcmp] decides what [memcmp] decides: on two arrays of at
    least [len] bytes it is [true] exactly when [memcmp] returns zero. *)
Theorem comptime_memcmp_agrees_with_memcmp (a b : list byte) (len : nat) :
  (len <= length a)%nat -> (len <= length b)%nat ->
  comptime_memcmp a b len = true <-> memcmp a b (Z.of_nat len) = 0.
Proof.
  intros Ha Hb. rewrite comptime_memcmp_true, memcmp_eq, Nat2Z.id.
  split; [by intros (_ & _ & E) | by intros E].
Qed.

Lemma comptime_memcmp_agrees_with_memcmp_witness :
  comptime_memcmp (bytes "abcd") (bytes "abxy") 2 = true
  <-> memcmp (bytes "abcd") (bytes "abxy") (Z.of_nat 2) = 0.
Proof.
  apply (comptime_memcmp_agrees_with_memcmp (bytes "abcd") (bytes "abxy") 2);
    by_evaluation.
Defined.

(** [type_id] yields a tag only for a text made of the expected prefix, a
    description and the expected suffix; the two literals then do not
    overlap, so the length handed to the hash is the length of the
    description, and the tag is a 32-bit value. *)
Theorem type_id_only_for_framed_text
    (char_is_signed : bool) (PF : list byte) (h : Z) :
  type_id char_is_signed PF = Some h ->
  (exists T,
     PF = PRETTY_FUNCTION_PRE ++ T ++ PRETTY_FUNCTION_POST /\
     Z.of_nat (length PF) - Z.of_nat (length PRETTY_FUNCTION_PRE)
       - Z.of_nat (length PRETTY_FUNCTION_POST) = Z.of_nat (length T) /\
     h = comptime_hash char_is_signed T (Z.of_nat (length T))) /\
  0 <= h < 2 ^ 32.
Proof.
  intros Hh. destruct (type_id_Some_inv _ _ _ Hh) as (T & -> & ->). split.
  - exists T. split; [done|]. split.
    + rewrite !length_app. lia.
    + rewrite comptime_hash_spec by lia. by rewrite Nat2Z.id, firstn_all.
  - rewrite <- (firstn_all T), <- (Nat2Z.id (length T)).
    rewrite <- comptime_hash_spec by lia. apply comptime_hash_range.
Qed.

Lemma type_id_only_for_framed_text_witness :
  (exists T,
     bytes "constexpr uint32_t tscpp::type_id() [with T = int; uint32_t = unsigned int]"
       = PRETTY_FUNCTION_PRE ++ T ++ PRETTY_FUNCTION_POST /\
     Z.of_nat (length (bytes "constexpr uint32_t tscpp::type_id() [with T = int; uint32_t = unsigned int]"))
       - Z.of_nat (length PRETTY_FUNCTION_PRE)
       - Z.of_nat (length PRETTY_FUNCTION_POST) = Z.of_nat (length T) /\
     556453026 = comptime_hash true T (Z.of_nat (length T))) /\
  0 <= 556453026 < 2 ^ 32.
Proof.
  apply (type_id_only_for_framed_text true
           (bytes "constexpr uint32_t tscpp::type_id() [with T = int; uint32_t = unsigned int]")
           556453026); by_evaluation.
Defined.

(** ** Stream API: failures and what can be read after them *)

(** The source ends inside the tag of a known-type read: ["eof"] is
    thrown, the destination is not written, and the cursor is left at the
    end of the source with [eofbit] and [failbit] set; unlike after
    ["wrong type"], the stream is not put back at the start of the read. *)
Theorem InputArchive_eof_in_tag_not_rewound
    (is_ : istream) (name data : list byte) (size : Z) :
  good is_ = true -> (gptr is_ <= length (chars is_))%nat ->
  (length (remaining is_) < strlen name + 1)%nat ->
  InputArchive.unserializeImpl is_ name data size
    = (Throw (TscppException.Make1 "eof"), data,
       Istream (chars is_) (length (chars is_)) true true) /\
  good (Istream (chars is_) (length (chars is_)) true true) = false.
Proof.
  intros Hg Hp Hr. split; [|done].
  rewrite (good_is_good_stream is_ Hg) at 1.
  unfold InputArchive.unserializeImpl. rewrite tellg_good.
  unfold remaining in Hr.
  rewrite read_good_short by (rewrite ?new_char_length; lia).
  simpl. do 2 f_equal. rewrite length_drop. lia.
Qed.

Lemma InputArchive_eof_in_tag_not_rewound_witness :
  let is_ := good_stream (bytes "head" ++ bytes "lo") 4 in
  InputArchive.unserializeImpl is_ (bytes "long" ++ [NUL]) (bytes ".") 1
    = (Throw (TscppException.Make1 "eof"), bytes ".",
       Istream (chars is_) 6 true true) /\
  good (Istream (chars is_) 6 true true) = false.
Proof.
  apply (InputArchive_eof_in_tag_not_rewound
           (good_stream (bytes "head" ++ bytes "lo") 4)
           (bytes "long" ++ [NUL]) (bytes ".") 1); by_evaluation.
Defined.

(** A record whose type is not in the pool: the unknown-type read throws
    ["unknown type"] with the name of the type and puts the stream back at
    the start of the record, from where the known-type read of that type
    returns the value. *)
Theorem unknown_type_then_known_read
    {U : Type} (tp : TypePool U) (u : U)
    (T : ctype) (v t : list byte) (os : ostream) (rest : list byte) :
  c_string (type_name T) -> has_type T v -> has_type T t ->
  tp !! c_str (type_name T) = None ->
  let is0 := good_stream (OutputArchive.put T os v ++ rest) (length os) in
  UnknownInputArchive.unserialize is0 tp u
    = (Throw (TscppException.Make "unknown type" (c_str (type_name T))), is0, u) /\
  InputArchive.get T (snd (fst (UnknownInputArchive.unserialize is0 tp u))) t
    = (Return, v,
       good_stream (OutputArchive.put T os v ++ rest)
                   (length os + length (record T v))).
Proof.
  intros Hn Hv Ht Hl is0.
  assert (Hd : drop (length os) (OutputArchive.put T os v ++ rest)
               = record T v ++ rest).
  { rewrite OutputArchive_put_record by done.
    by rewrite <- !app_assoc, drop_app_length. }
  assert (E : UnknownInputArchive.unserialize is0 tp u
              = (Throw (TscppException.Make "unknown type" (c_str (type_name T))),
                 is0, u)).
  { apply (UnknownInputArchive_unknown_tag tp u _ _ _ (v ++ rest));
      [|apply c_str_no_NUL|done].
    rewrite Hd. unfold record. by rewrite <- !app_assoc. }
  split; [done|]. rewrite E. simpl.
  by apply (InputArchive_get_record _ _ T v t rest).
Qed.

Lemma unknown_type_then_known_read_witness :
  let is0 := good_stream (OutputArchive.put ex_char (bytes "head") (bytes "x")
                          ++ bytes "tail") 4 in
  UnknownInputArchive.unserialize is0 ex_pool []
    = (Throw (TscppException.Make "unknown type" (bytes "c")), is0, []) /\
  InputArchive.get ex_char
      (snd (fst (UnknownInputArchive.unserialize is0 ex_pool []))) (bytes ".")
    = (Return, bytes "x",
       good_stream (OutputArchive.put ex_char (bytes "head") (bytes "x")
                    ++ bytes "tail") 7).
Proof.
  apply (unknown_type_then_known_read ex_pool [] ex_char (bytes "x") (bytes ".")
           (bytes "head") (bytes "tail")); by_evaluation.
Defined.
